(** * gapii/cc/call_observer.h : the per-call memory-observation engine

    A shallow embedding of [gapii::CallObserver] and of the parts of its
    collaborators it calls ([core::IntervalList], [gapii::Slice],
    [gapii::Pool], the [.cpp] bodies of [read], [write] and [observe]),
    followed by the properties of the observation protocol.

    Conventions.
    - [uint64_t] and [uintptr_t] values are [Z]; the one product the header
      computes on them, [count * sizeof(T)], and the successor [i + 1], are
      reduced with [wrap64].
    - A pointer is a pool and an address in it.  The application pool is the
      process address space itself, so a raw [const void*] handed over by the
      glue code is an address of [ApplicationPool].
    - The observer's methods run in the monad [M], which threads the
      [World] (observer fields, memory, pools) and carries the abort raised
      by [checkNotNull]. *)

From Stdlib Require Import ZArith List Bool Lia.
From Stdlib.Strings Require Import Byte.
Import ListNotations.
Open Scope Z_scope.

(* ================================================================== *)
(** * Machine integers                                                  *)
(* ================================================================== *)

Definition wrap64 (z : Z) : Z := z mod 2 ^ 64.

(* ================================================================== *)
(** * core::IntervalList<uintptr_t>                                     *)
(* ================================================================== *)

Module IntervalList.

(** [core::Interval<T>]: the half-open range [[mStart, mEnd)]. *)
Record Interval : Type := mkInterval { mStart : Z; mEnd : Z }.

Definition t : Type := list Interval.

Definition empty : t := [].

Definition count (l : t) : Z := Z.of_nat (length l).

(** Modelled from the spec: [core/cc/interval_list.h] is not part of the
    sources.  The tracker is an ordered collection of intervals and
    "insertion merges any intersecting/adjacent entries into one": walking
    the ordered entries, an entry that ends strictly before the new range
    is kept in front of it, an entry that starts strictly after it ends is
    kept behind it, and every other entry (overlapping or touching) is
    absorbed into the new range. *)
Fixpoint merge (s e : Z) (l : t) : t :=
  match l with
  | [] => [mkInterval s e]
  | i :: rest =>
      if mEnd i <? s then i :: merge s e rest
      else if e <? mStart i then mkInterval s e :: i :: rest
      else merge (Z.min s (mStart i)) (Z.max e (mEnd i)) rest
  end.

(** Modelled from the spec: "[insert(address, size)] adds
    [[address, address+size)], merging with any existing entry that
    overlaps or is adjacent"; "[size == 0] is a no-op". *)
Definition insert (address size : Z) (l : t) : t :=
  if size =? 0 then l else merge address (address + size) l.

Definition clear (l : t) : t := empty.

(** [covers l a b]: some retained entry contains [[a, b)]. *)
Definition covers (l : t) (a b : Z) : Prop :=
  exists i, In i l /\ mStart i <= a /\ b <= mEnd i.

(** [member x l]: address [x] lies in some retained entry. *)
Definition member (x : Z) (l : t) : Prop :=
  exists i, In i l /\ mStart i <= x < mEnd i.

(** [above b l]: the first entry of [l], if any, starts strictly after
    [b]. *)
Definition above (b : Z) (l : t) : Prop :=
  match l with
  | [] => True
  | j :: _ => b < mStart j
  end.

(** The representation invariant of the spec's data model: entries are
    non-empty, ordered, and no two of them overlap or touch. *)
Fixpoint separated (l : t) : Prop :=
  match l with
  | [] => True
  | i :: rest => mStart i < mEnd i /\ above (mEnd i) rest /\ separated rest
  end.

End IntervalList.

Import IntervalList(Interval, mkInterval, mStart, mEnd).

(* ================================================================== *)
(** * Memory, pools and slices (gapii/cc/slice.h, gapii/cc/pool.h)      *)
(* ================================================================== *)

(** The owner of a piece of memory: the instrumented application, or a
    pool created by the interceptor ([Pool::create]). *)
Inductive PoolId : Type :=
| ApplicationPool
| SpyPool (id : nat).

Definition PoolId_eqb (p q : PoolId) : bool :=
  match p, q with
  | ApplicationPool, ApplicationPool => true
  | SpyPool a, SpyPool b => Nat.eqb a b
  | _, _ => false
  end.

(** Byte-addressed memory, one address space per pool. *)
Definition Memory : Type := PoolId -> Z -> byte.

Definition load_bytes (m : Memory) (p : PoolId) (a n : Z) : list byte :=
  map (fun k => m p (a + Z.of_nat k)) (seq 0 (Z.to_nat n)).

Definition store_bytes (m : Memory) (p : PoolId) (a : Z) (bs : list byte)
  : Memory :=
  fun q x =>
    if PoolId_eqb q p && (a <=? x) && (x <? a + Z.of_nat (length bs))
    then nth (Z.to_nat (x - a)) bs x00
    else m q x.

(** The element types [T] a [Slice<T>] is instantiated at: [sizeof(T)] and
    the object representation of a value. *)
Class Storable (T : Type) : Type := {
  sizeof : Z;
  encode : T -> list byte;
  decode : list byte -> T;
  sizeof_pos : 0 < sizeof;
  encode_length : forall v, Z.of_nat (length (encode v)) = sizeof;
  decode_encode : forall v, decode (encode v) = v
}.

Arguments sizeof T {_}.

(** [char] *)
#[export] Instance Storable_char : Storable byte.
Proof.
  refine {| sizeof := 1;
            encode := fun b => [b];
            decode := fun bs => hd x00 bs |}.
  - lia.
  - reflexivity.
  - reflexivity.
Defined.

(** [uint16_t], little endian. *)
#[export] Instance Storable_u16 : Storable (byte * byte).
Proof.
  refine {| sizeof := 2;
            encode := fun v => [fst v; snd v];
            decode := fun bs => (nth 0 bs x00, nth 1 bs x00) |}.
  - lia.
  - reflexivity.
  - intros [lo hi]; reflexivity.
Defined.

(** [Slice<T>]: base pointer, element count, owning pool. *)
Record Slice (T : Type) : Type := mkSlice {
  mBase : Z;
  mCount : Z;
  mPool : PoolId
}.

Arguments mkSlice {T} _ _ _.
Arguments mBase {T} _.
Arguments mCount {T} _.
Arguments mPool {T} _.

Section SliceOps.
Context {T : Type} `{Storable T}.

Definition slice_begin (s : Slice T) : Z := mBase s.

Definition slice_count (s : Slice T) : Z := mCount s.

Definition slice_end (s : Slice T) : Z := mBase s + mCount s * sizeof T.

(** Modelled from the spec: [slice.h] is not part of the sources.  "A
    slice's owningPool determines whether its bytes are classified as
    application pool or any other pool". *)
Definition isApplicationPool (s : Slice T) : bool :=
  match mPool s with
  | ApplicationPool => true
  | SpyPool _ => false
  end.

(** [&slice[i]]: the address of the i'th element (the bound on [i] is the
    caller's obligation). *)
Definition slice_index (s : Slice T) (i : Z) : Z := mBase s + i * sizeof T.

(** [slice[i]] as an rvalue. *)
Definition slice_get (m : Memory) (s : Slice T) (i : Z) : T :=
  decode (load_bytes m (mPool s) (slice_index s i) (sizeof T)).

(** [slice[i] = v]. *)
Definition slice_set (m : Memory) (s : Slice T) (i : Z) (v : T) : Memory :=
  store_bytes m (mPool s) (slice_index s i) (encode v).

(** Modelled from the spec: [Slice::copy(dst, start, count, dstStart)] is
    not part of the sources; it "performs an actual byte copy" of [count]
    elements of the receiver, from element [start], to [dst] at element
    [dstStart]. *)
Definition slice_copy (m : Memory) (src dst : Slice T)
  (start cnt dstStart : Z) : Memory :=
  store_bytes m (mPool dst) (slice_index dst dstStart)
    (load_bytes m (mPool src) (slice_index src start) (cnt * sizeof T)).

(** Two slices share no byte. *)
Definition slices_disjoint (a b : Slice T) : Prop :=
  mPool a <> mPool b \/ slice_end a <= mBase b \/ slice_end b <= mBase a.

(** The bytes a slice views. *)
Definition slice_bytes (m : Memory) (s : Slice T) : list byte :=
  load_bytes m (mPool s) (mBase s) (mCount s * sizeof T).

End SliceOps.

(* ================================================================== *)
(** * The observer and the world it runs in                             *)
(* ================================================================== *)

(** [core::coder::atom::Observation]: an address and the bytes found there
    when the range was drained. *)
Record Observation : Type := mkObservation {
  obsBase : Z;
  obsData : list byte
}.

(** [core::coder::atom::Observations] *)
Record Observations : Type := mkObservations {
  mReads : list Observation;
  mWrites : list Observation
}.

(** A [core::Encodable*]: an object of the observer's scratch arena, or an
    object owned by somebody else. *)
Inductive EncodablePtr : Type :=
| ScratchPtr (h : nat)
| ForeignPtr (p : Z).

Definition is_scratch (e : EncodablePtr) : bool :=
  match e with
  | ScratchPtr _ => true
  | ForeignPtr _ => false
  end.

Record CallObserver : Type := mkCallObserver {
  mCurrentCommandName : Z;                 (* const char*, 0 is nullptr *)
  mObserveApplicationPool : bool;
  mScratch : list Observations;            (* objects created in the arena *)
  mObservations : option nat;              (* Observations*, None is nullptr *)
  mPendingObservations : IntervalList.t;
  mExtras : list EncodablePtr;
  mError : Z
}.

Record World : Type := mkWorld {
  observer : CallObserver;
  memory : Memory;
  pools : list Z                           (* sizes of the pools created *)
}.

Inductive AbortReason : Type :=
| NullPointer.

Inductive Result (A : Type) : Type :=
| Ok (a : A)
| Abort (r : AbortReason)
| Diverge.

Arguments Ok {A} _.
Arguments Abort {A} _.
Arguments Diverge {A}.

Definition M (A : Type) : Type := World -> Result (A * World).

Definition ret {A : Type} (a : A) : M A := fun w => Ok (a, w).

Definition bind {A B : Type} (c : M A) (k : A -> M B) : M B :=
  fun w =>
    match c w with
    | Ok (a, w') => k a w'
    | Abort r => Abort r
    | Diverge => Diverge
    end.

Definition gets {A : Type} (f : World -> A) : M A := fun w => Ok (f w, w).

Definition modify (f : World -> World) : M unit := fun w => Ok (tt, f w).

Definition abort {A : Type} (r : AbortReason) : M A := fun _ => Abort r.

Definition diverge {A : Type} : M A := fun _ => Diverge.

Declare Scope monad_scope.
Delimit Scope monad_scope with monad.
Notation "x <- c ;; k" := (bind c (fun x => k))
  (at level 61, c at next level, right associativity) : monad_scope.
Notation "c ;; k" := (bind c (fun _ => k))
  (at level 61, right associativity) : monad_scope.
Open Scope monad_scope.

(** Field updates. *)
Definition with_observer (f : CallObserver -> CallObserver) (w : World)
  : World :=
  mkWorld (f (observer w)) (memory w) (pools w).

Definition with_memory (f : Memory -> Memory) (w : World) : World :=
  mkWorld (observer w) (f (memory w)) (pools w).

Definition set_pending (l : IntervalList.t) (o : CallObserver)
  : CallObserver :=
  mkCallObserver (mCurrentCommandName o) (mObserveApplicationPool o)
    (mScratch o) (mObservations o) l (mExtras o) (mError o).

Definition set_scratch (a : list Observations) (o : CallObserver)
  : CallObserver :=
  mkCallObserver (mCurrentCommandName o) (mObserveApplicationPool o)
    a (mObservations o) (mPendingObservations o) (mExtras o) (mError o).

Definition set_observations (p : option nat) (o : CallObserver)
  : CallObserver :=
  mkCallObserver (mCurrentCommandName o) (mObserveApplicationPool o)
    (mScratch o) p (mPendingObservations o) (mExtras o) (mError o).

Definition set_extras (l : list EncodablePtr) (o : CallObserver)
  : CallObserver :=
  mkCallObserver (mCurrentCommandName o) (mObserveApplicationPool o)
    (mScratch o) (mObservations o) (mPendingObservations o) l (mError o).

Definition set_error (e : Z) (o : CallObserver) : CallObserver :=
  mkCallObserver (mCurrentCommandName o) (mObserveApplicationPool o)
    (mScratch o) (mObservations o) (mPendingObservations o) (mExtras o) e.

Definition set_command_name (n : Z) (o : CallObserver) : CallObserver :=
  mkCallObserver n (mObserveApplicationPool o)
    (mScratch o) (mObservations o) (mPendingObservations o) (mExtras o)
    (mError o).

(* ================================================================== *)
(** * CallObserver                                                      *)
(* ================================================================== *)

Definition std_string : Type := list byte.

Definition pending (w : World) : IntervalList.t :=
  mPendingObservations (observer w).

(** Modelled from the spec: the constructor lives in [call_observer.cpp],
    which is not part of the sources.  The policy flag is "fixed at
    construction (sourced from the spy)", the observation record is "lazily
    created", the tracker and the extras start empty. *)
Definition construct (observeApplicationPool : bool) : CallObserver :=
  mkCallObserver 0 observeApplicationPool [] None IntervalList.empty [] 0.

Definition setCurrentCommandName (cmd_name : Z) : M unit :=
  modify (with_observer (set_command_name cmd_name)).

Definition getCurrentCommandName : M Z :=
  gets (fun w => mCurrentCommandName (observer w)).

Definition getError : M Z := gets (fun w => mError (observer w)).

Definition setError (err : Z) : M unit :=
  modify (with_observer (set_error err)).

Definition getExtras : M (list EncodablePtr) :=
  gets (fun w => mExtras (observer w)).

Definition addExtra (extra : EncodablePtr) : M unit :=
  modify (with_observer (fun o => set_extras (mExtras o ++ [extra]) o)).

(** Modelled from the spec: [CallObserver::read(const void*, uint64_t)] is
    defined in [call_observer.cpp], which is not part of the sources.
    "[read(base, size)] / [write(base, size)]: unconditionally record the
    byte range [[base, base+size)] into the pending-range tracker". *)
Definition read (base size : Z) : M unit :=
  modify (with_observer (fun o =>
    set_pending (IntervalList.insert base size (mPendingObservations o)) o)).

(** Modelled from the spec: [CallObserver::write(const void*, uint64_t)],
    as [read] above; the header keeps one list for "pending reads or writes
    observations". *)
Definition write (base size : Z) : M unit :=
  modify (with_observer (fun o =>
    set_pending (IntervalList.insert base size (mPendingObservations o)) o)).

(** The payload of a retained range, read from live memory. *)
Definition snapshot (m : Memory) (i : Interval) : Observation :=
  mkObservation (mStart i)
    (load_bytes m ApplicationPool (mStart i) (mEnd i - mStart i)).

(** Modelled from the spec: [CallObserver::observe] is defined in
    [call_observer.cpp], which is not part of the sources.  It "drains the
    tracker directly into an arbitrary caller-supplied list", appending
    "address + current bytes at that address" for every retained range, and
    "always empties the tracker afterward".  The list passed by reference
    is returned. *)
Definition observe (observations : list Observation)
  : M (list Observation) :=
  m <- gets memory ;;
  l <- gets pending ;;
  modify (with_observer (fun o =>
    set_pending (IntervalList.clear (mPendingObservations o)) o)) ;;
  ret (observations ++ map (snapshot m) l).

(** [mScratch.create<Observations>()]: a fresh, default-constructed object
    of the arena; its handle is returned. *)
Definition scratch_create : M nat :=
  a <- gets (fun w => mScratch (observer w)) ;;
  modify (with_observer (set_scratch (a ++ [mkObservations [] []]))) ;;
  ret (length a).

Fixpoint update_nth {A : Type} (n : nat) (x : A) (l : list A) : list A :=
  match l, n with
  | [], _ => []
  | _ :: t, O => x :: t
  | y :: t, S n' => y :: update_nth n' x t
  end.

(** Dereferencing an arena pointer. *)
Definition scratch_load (h : nat) : M Observations :=
  gets (fun w => nth h (mScratch (observer w)) (mkObservations [] [])).

Definition scratch_store (h : nat) (v : Observations) : M unit :=
  modify (with_observer (fun o => set_scratch (update_nth h v (mScratch o)) o)).

(** call_observer.h:180 *)
Definition observeReads : M unit :=
  n <- gets (fun w => IntervalList.count (pending w)) ;;
  if 0 <? n then
    p <- gets (fun w => mObservations (observer w)) ;;
    h <- match p with
         | None =>
             h <- scratch_create ;;
             modify (with_observer (set_observations (Some h))) ;;
             addExtra (ScratchPtr h) ;;
             ret h
         | Some h => ret h
         end ;;
    r <- scratch_load h ;;
    reads <- observe (mReads r) ;;
    scratch_store h (mkObservations reads (mWrites r))
  else ret tt.

(** call_observer.h:190 *)
Definition observeWrites : M unit :=
  n <- gets (fun w => IntervalList.count (pending w)) ;;
  if 0 <? n then
    p <- gets (fun w => mObservations (observer w)) ;;
    h <- match p with
         | None =>
             h <- scratch_create ;;
             modify (with_observer (set_observations (Some h))) ;;
             addExtra (ScratchPtr h) ;;
             ret h
         | Some h => ret h
         end ;;
    r <- scratch_load h ;;
    writes <- observe (mWrites r) ;;
    scratch_store h (mkObservations (mReads r) writes)
  else ret tt.

(** Modelled from the spec: [Pool::create] is not part of the sources; the
    spec only says that [clone] "allocates a new interceptor-owned slice
    ... from a pool sized [count * elementSize]".  A created pool is a new
    owner with its own storage, addressed from [0]. *)
Definition Pool_create (size : Z) : M PoolId :=
  ps <- gets pools ;;
  modify (fun w => mkWorld (observer w) (memory w) (ps ++ [size])) ;;
  ret (SpyPool (length ps)).

(** [pool->base()] *)
Definition Pool_base (p : PoolId) : Z := 0.

Section SliceObservation.
Context {T : Type} `{Storable T}.

(** call_observer.h:146 *)
Definition shouldObserve (slice : Slice T) : M bool :=
  flag <- gets (fun w => mObserveApplicationPool (observer w)) ;;
  ret (flag && isApplicationPool slice).

(** call_observer.h:200 *)
Definition read_slice (slice : Slice T) : M unit :=
  b <- shouldObserve slice ;;
  if b then read (slice_begin slice) (wrap64 (slice_count slice * sizeof T))
  else ret tt.

(** call_observer.h:207 *)
Definition read_index (src : Slice T) (index : Z) : M T :=
  m <- gets memory ;;
  b <- shouldObserve src ;;
  (if b then read (slice_index src index) (sizeof T) else ret tt) ;;
  ret (slice_get m src index).

(** call_observer.h:216 *)
Definition write_slice (slice : Slice T) : M unit :=
  b <- shouldObserve slice ;;
  if b then write (slice_begin slice) (wrap64 (slice_count slice * sizeof T))
  else ret tt.

(** call_observer.h:223 *)
Definition write_index (dst : Slice T) (index : Z) (value : T) : M unit :=
  b <- shouldObserve dst ;;
  if negb b then modify (with_memory (fun m => slice_set m dst index value))
  else write (slice_index dst index) (sizeof T).

(** call_observer.h:234 *)
Definition copy (dst src : Slice T) : M (Slice T) :=
  read_slice src ;;
  b <- shouldObserve dst ;;
  (if negb b then
     let c := if slice_count src <? slice_count dst
              then slice_count src else slice_count dst in
     modify (with_memory (fun m => slice_copy m src dst 0 c 0))
   else ret tt) ;;
  ret dst.

(** call_observer.h:252 *)
Definition make (count : Z) : M (Slice T) :=
  pool <- Pool_create (wrap64 (count * sizeof T)) ;;
  ret (mkSlice (Pool_base pool) count pool).

(** call_observer.h:245 *)
Definition clone (src : Slice T) : M (Slice T) :=
  dst <- make (slice_count src) ;;
  copy dst src ;;
  ret dst.

(** The value of [shouldObserve(s)] in world [w]. *)
Definition observed (s : Slice T) (w : World) : bool :=
  mObserveApplicationPool (observer w) && isApplicationPool s.

(** The world after the [read(src)] that opens [copy]. *)
Definition after_read (src : Slice T) (w : World) : World :=
  if observed src w
  then with_observer (fun o =>
         set_pending
           (IntervalList.insert (slice_begin src)
              (wrap64 (slice_count src * sizeof T))
              (mPendingObservations o)) o) w
  else w.

End SliceObservation.

(** The pool behind a slice exists: it is the application's memory or a
    pool that has been created. *)
Definition pool_live (p : PoolId) (w : World) : Prop :=
  match p with
  | ApplicationPool => True
  | SpyPool id => (id < length (pools w))%nat
  end.

(** Modelled from the spec: [checkNotNull] is not part of the sources;
    [string] "fails with a null-pointer error if [cPointer] is null". *)
Definition checkNotNull (p : Z) : M unit :=
  if p =? 0 then abort NullPointer else ret tt.

(** The loop of call_observer.h:260; [fuel] bounds the number of
    iterations the model follows. *)
Fixpoint string_loop (fuel : nat) (str i : Z) : M std_string :=
  match fuel with
  | O => diverge
  | S fuel' =>
      m <- gets memory ;;
      if Byte.eqb (m ApplicationPool (str + i)) x00 then
        read str (wrap64 (i + 1)) ;;
        ret (load_bytes m ApplicationPool str i)
      else string_loop fuel' str (wrap64 (i + 1))
  end.

(** call_observer.h:258 *)
Definition string_cstr (fuel : nat) (str : Z) : M std_string :=
  checkNotNull str ;;
  string_loop fuel str 0.

(** call_observer.h:268 *)
Definition string_slice (slice : Slice byte) : M std_string :=
  read_slice slice ;;
  m <- gets memory ;;
  ret (load_bytes m (mPool slice) (slice_begin slice)
         (slice_end slice - slice_begin slice)).

(* ================================================================== *)
(** * One call's worth of operations                                    *)
(* ================================================================== *)

(** What the glue code, the application and the driver may do to an
    observer and to memory during one intercepted call. *)
Inductive Op : Type :=
| OpRead (base size : Z)
| OpWrite (base size : Z)
| OpObserveReads
| OpObserveWrites
| OpAddExtra (p : Z)
| OpSetError (err : Z)
| OpSetCurrentCommandName (cmd_name : Z)
| OpPoke (address : Z) (b : byte)
| OpReadSlice (T : Type) (ST : Storable T) (slice : Slice T)
| OpWriteSlice (T : Type) (ST : Storable T) (slice : Slice T)
| OpReadIndex (T : Type) (ST : Storable T) (src : Slice T) (index : Z)
| OpWriteIndex (T : Type) (ST : Storable T) (dst : Slice T) (index : Z)
    (value : T)
| OpCopy (T : Type) (ST : Storable T) (dst src : Slice T)
| OpClone (T : Type) (ST : Storable T) (src : Slice T).

Definition step (op : Op) : M unit :=
  match op with
  | OpRead base size => read base size
  | OpWrite base size => write base size
  | OpObserveReads => observeReads
  | OpObserveWrites => observeWrites
  | OpAddExtra p => addExtra (ForeignPtr p)
  | OpSetError err => setError err
  | OpSetCurrentCommandName n => setCurrentCommandName n
  | OpPoke a b =>
      modify (with_memory (fun m => store_bytes m ApplicationPool a [b]))
  | OpReadSlice T ST slice => read_slice slice
  | OpWriteSlice T ST slice => write_slice slice
  | OpReadIndex T ST src index => read_index src index ;; ret tt
  | OpWriteIndex T ST dst index value => write_index dst index value
  | OpCopy T ST dst src => copy dst src ;; ret tt
  | OpClone T ST src => clone src ;; ret tt
  end.

Fixpoint run (ops : list Op) : M unit :=
  match ops with
  | [] => ret tt
  | op :: rest => step op ;; run rest
  end.

(** The observation records that exist, and those reachable from the
    extras. *)
Definition records_created (w : World) : nat :=
  length (mScratch (observer w)).

Definition records_attached (w : World) : nat :=
  length (filter is_scratch (mExtras (observer w))).

(** The record [mObservations] points at; the empty record while it is
    null. *)
Definition current_record (w : World) : Observations :=
  match mObservations (observer w) with
  | Some h => nth h (mScratch (observer w)) (mkObservations [] [])
  | None => mkObservations [] []
  end.

(** [mObservations] is null or points into the arena. *)
Definition record_valid (w : World) : Prop :=
  match mObservations (observer w) with
  | Some h => (h < length (mScratch (observer w)))%nat
  | None => True
  end.

(** Either no record has been created and none is attached, or exactly
    one has been created, [mObservations] points at it and the extras hold
    it once. *)
Definition single_record (w : World) : Prop :=
  match mObservations (observer w) with
  | None =>
      mScratch (observer w) = [] /\
      filter is_scratch (mExtras (observer w)) = []
  | Some h =>
      h = 0%nat /\
      length (mScratch (observer w)) = 1%nat /\
      filter is_scratch (mExtras (observer w)) = [ScratchPtr 0]
  end.

(** What a materialization of a non-empty tracker does to the record,
    when it drains into the reads and when it drains into the writes. *)
Definition drained_into_reads (w w' : World) : Prop :=
  current_record w' =
  mkObservations
    (mReads (current_record w) ++ map (snapshot (memory w)) (pending w))
    (mWrites (current_record w)).

Definition drained_into_writes (w w' : World) : Prop :=
  current_record w' =
  mkObservations
    (mReads (current_record w))
    (mWrites (current_record w) ++ map (snapshot (memory w)) (pending w)).

(** The record a materialization uses: the one already there, or a new
    one appended to the arena and attached to the extras. *)
Definition record_kept_or_created (w w' : World) : Prop :=
  match mObservations (observer w) with
  | Some h =>
      mObservations (observer w') = Some h /\
      length (mScratch (observer w')) = length (mScratch (observer w)) /\
      mExtras (observer w') = mExtras (observer w)
  | None =>
      mObservations (observer w') = Some (length (mScratch (observer w))) /\
      length (mScratch (observer w')) = S (length (mScratch (observer w))) /\
      mExtras (observer w') =
        mExtras (observer w) ++ [ScratchPtr (length (mScratch (observer w)))]
  end.

(** What a materialization leaves alone. *)
Definition rest_untouched (w w' : World) : Prop :=
  memory w' = memory w /\ pools w' = pools w /\
  mObserveApplicationPool (observer w') = mObserveApplicationPool (observer w) /\
  mError (observer w') = mError (observer w) /\
  mCurrentCommandName (observer w') = mCurrentCommandName (observer w).

(* ================================================================== *)
(** * Sample worlds                                                     *)
(* ================================================================== *)

Definition zero_memory : Memory := fun _ _ => x00.

(** The application's memory holds the C string "abc" at address 4096. *)
Definition abc_memory : Memory :=
  fun p a =>
    match p with
    | ApplicationPool =>
        if a =? 4096 then x61
        else if a =? 4097 then x62
        else if a =? 4098 then x63
        else x00
    | SpyPool _ => x00
    end.

(** An observer just constructed, no pool created yet. *)
Definition fresh_world (observeApplicationPool : bool) (m : Memory) : World :=
  mkWorld (construct observeApplicationPool) m [].

(** Four [char]s of application memory at address 4096. *)
Definition app_chars : Slice byte := mkSlice 4096 4 ApplicationPool.

(** Four [char]s of the interceptor's pool 0. *)
Definition spy_chars : Slice byte := mkSlice 0 4 (SpyPool 0).

(** Eight [char]s of the interceptor's pool 0. *)
Definition spy_chars8 : Slice byte := mkSlice 0 8 (SpyPool 0).

(** Five [char]s of the interceptor's pool 1. *)
Definition spy_chars5 : Slice byte := mkSlice 0 5 (SpyPool 1).

(* ================================================================== *)
(** * Reading a run of operations                                       *)
(* ================================================================== *)

(** The application or the driver writing its own memory. *)
Definition is_poke (op : Op) : bool :=
  match op with
  | OpPoke _ _ => true
  | _ => false
  end.

(** The operations that take slices. *)
Definition is_slice_op (op : Op) : bool :=
  match op with
  | OpReadSlice _ _ _ | OpWriteSlice _ _ _ | OpReadIndex _ _ _ _
  | OpWriteIndex _ _ _ _ _ | OpCopy _ _ _ _ | OpClone _ _ _ => true
  | _ => false
  end.

(** The extras the glue code adds during a run, in the order of the
    calls. *)
Fixpoint added_extras (ops : list Op) : list EncodablePtr :=
  match ops with
  | [] => []
  | OpAddExtra p :: rest => ForeignPtr p :: added_extras rest
  | _ :: rest => added_extras rest
  end.

(** The argument of the last [setError] of a run, [err] when there is
    none. *)
Fixpoint last_error (ops : list Op) (err : Z) : Z :=
  match ops with
  | [] => err
  | OpSetError err' :: rest => last_error rest err'
  | _ :: rest => last_error rest err
  end.

(** The argument of the last [setCurrentCommandName] of a run. *)
Fixpoint last_command_name (ops : list Op) (cmd_name : Z) : Z :=
  match ops with
  | [] => cmd_name
  | OpSetCurrentCommandName n :: rest => last_command_name rest n
  | _ :: rest => last_command_name rest cmd_name
  end.

(** The extras that are not objects of the observer's arena. *)
Definition foreign_extras (w : World) : list EncodablePtr :=
  filter (fun e => negb (is_scratch e)) (mExtras (observer w)).

(** The policy flag, the error code and the command name of the
    observer. *)
Definition scalars (w : World) : bool * Z * Z :=
  (mObserveApplicationPool (observer w), mError (observer w),
   mCurrentCommandName (observer w)).


(* ================================================================== *)
(** * The pending-range tracker                                         *)
(* ================================================================== *)

Section IntervalListFacts.
Import IntervalList.

Lemma interval_eta (i : Interval) : mkInterval (mStart i) (mEnd i) = i.
Proof. destruct i; reflexivity. Qed.

Lemma above_weaken (b b' : Z) (l : t) : b' <= b -> above b l -> above b' l.
Proof. destruct l; simpl; [trivial | lia]. Qed.

Lemma separated_tail (i : Interval) (l : t) :
  separated (i :: l) -> separated l.
Proof. simpl; tauto. Qed.

(** In a separated list every later entry starts after an earlier one
    ends. *)
Lemma separated_all_above (l : t) :
  forall b, above b l -> separated l ->
  forall j, In j l -> b < mStart j.
Proof.
  induction l as [|i rest IH]; intros b Hb Hsep j Hin.
  - destruct Hin.
  - simpl in Hb. destruct Hsep as (Hne & Habove & Hrest).
    destruct Hin as [<- | Hin]; [exact Hb|].
    pose proof (IH (mEnd i) Habove Hrest j Hin). lia.
Qed.

Lemma merge_above (s e : Z) (l : t) :
  s < e -> separated l -> above e l -> merge s e l = mkInterval s e :: l.
Proof.
  destruct l as [|i rest]; simpl; intros Hse Hsep Hab; [reflexivity|].
  destruct (Z.ltb_spec (mEnd i) s); [lia|].
  destruct (Z.ltb_spec e (mStart i)); [reflexivity | lia].
Qed.

Lemma merge_keeps_above (l : t) :
  forall s e b, b < s -> above b l -> separated l -> above b (merge s e l).
Proof.
  induction l as [|i rest IH]; intros s e b Hbs Hab Hsep; simpl.
  - exact Hbs.
  - simpl in Hab. destruct Hsep as (Hne & Habove & Hrest).
    destruct (mEnd i <? s); [exact Hab|].
    destruct (e <? mStart i); [exact Hbs|].
    apply IH; [lia | | exact Hrest].
    apply above_weaken with (b := mEnd i); [lia | exact Habove].
Qed.

Lemma merge_separated (l : t) :
  forall s e, s < e -> separated l -> separated (merge s e l).
Proof.
  induction l as [|i rest IH]; intros s e Hse Hsep; simpl.
  - auto.
  - destruct Hsep as (Hne & Habove & Hrest).
    destruct (Z.ltb_spec (mEnd i) s) as [Hlt|Hge].
    + simpl. repeat split; auto.
      apply merge_keeps_above; assumption.
    + destruct (Z.ltb_spec e (mStart i)) as [Hlt'|Hge'].
      * simpl. auto.
      * apply IH; [lia | exact Hrest].
Qed.

(** After a merge some entry contains the merged range. *)
Lemma merge_covers (l : t) :
  forall s e, covers (merge s e l) s e.
Proof.
  induction l as [|i rest IH]; intros s e; simpl.
  - exists (mkInterval s e); simpl; intuition lia.
  - destruct (mEnd i <? s).
    + destruct (IH s e) as (j & Hin & Hj). exists j; simpl; tauto.
    + destruct (e <? mStart i).
      * exists (mkInterval s e); simpl; intuition lia.
      * destruct (IH (Z.min s (mStart i)) (Z.max e (mEnd i)))
          as (j & Hin & Hj).
        exists j; split; [exact Hin | lia].
Qed.

(** Merging a range that an entry already contains changes nothing. *)
Lemma merge_absorbed (l : t) :
  forall s e, s < e -> separated l -> covers l s e -> merge s e l = l.
Proof.
  induction l as [|i rest IH]; intros s e Hse Hsep (j & Hin & Hlo & Hhi).
  - destruct Hin.
  - destruct Hsep as (Hne & Habove & Hrest). simpl.
    destruct Hin as [<- | Hin].
    + destruct (Z.ltb_spec (mEnd i) s); [lia|].
      destruct (Z.ltb_spec e (mStart i)); [lia|].
      rewrite Z.min_r, Z.max_r by lia.
      rewrite merge_above by assumption.
      now rewrite interval_eta.
    + pose proof (separated_all_above rest (mEnd i) Habove Hrest j Hin).
      destruct (Z.ltb_spec (mEnd i) s); [|lia].
      f_equal. apply IH; auto. exists j; auto.
Qed.

Lemma member_nil (x : Z) : member x [] <-> False.
Proof. split; [intros (i & [] & _) | intros []]. Qed.

Lemma member_cons (x : Z) (i : Interval) (l : t) :
  member x (i :: l) <-> mStart i <= x < mEnd i \/ member x l.
Proof.
  split.
  - intros (j & [Heq | Hin] & Hx); [subst j; auto | right; exists j; auto].
  - intros [Hx | (j & Hin & Hx)]; [exists i | exists j]; simpl; auto.
Qed.

(** A merge retains the addresses it found and those of the new range,
    and no other. *)
Lemma merge_member (l : t) :
  forall s e x, s < e ->
  (member x (merge s e l) <-> member x l \/ s <= x < e).
Proof.
  induction l as [|i rest IH]; intros s e x Hse; simpl.
  - rewrite member_cons, member_nil. simpl. tauto.
  - destruct (Z.ltb_spec (mEnd i) s) as [Hlt|Hge].
    + rewrite !member_cons, IH by exact Hse. tauto.
    + destruct (Z.ltb_spec e (mStart i)) as [Hlt'|Hge'].
      * rewrite !member_cons. simpl. tauto.
      * rewrite member_cons, IH by lia.
        destruct (Z.lt_ge_cases x s); destruct (Z.lt_ge_cases x e);
          intuition lia.
Qed.

Lemma insert_member (l : t) (address size x : Z) :
  0 <= size ->
  (member x (insert address size l) <->
   member x l \/ address <= x < address + size).
Proof.
  intros Hsz. unfold insert. destruct (Z.eqb_spec size 0) as [->|Hne].
  - split; [auto | intros [Hm | Hx]; [exact Hm | lia]].
  - apply merge_member. lia.
Qed.

Lemma insert_separated (l : t) (address size : Z) :
  0 <= size -> separated l -> separated (insert address size l).
Proof.
  intros Hsz Hsep. unfold insert.
  destruct (Z.eqb_spec size 0); [exact Hsep|].
  apply merge_separated; [lia | exact Hsep].
Qed.

Lemma insert_covers (l : t) (address size : Z) :
  size <> 0 -> covers (insert address size l) address (address + size).
Proof.
  intros Hsz. unfold insert.
  destruct (Z.eqb_spec size 0); [contradiction|].
  apply merge_covers.
Qed.

Lemma insert_idempotent (l : t) (address size : Z) :
  0 <= size -> separated l ->
  insert address size (insert address size l) = insert address size l.
Proof.
  intros Hsz Hsep. unfold insert.
  destruct (Z.eqb_spec size 0); [reflexivity|].
  apply merge_absorbed; [lia | | apply merge_covers].
  apply merge_separated; [lia | exact Hsep].
Qed.

(** What [separated] says about any two positions of the list. *)
Lemma separated_nth (l : t) (d : Interval) :
  separated l ->
  forall i j, (i < j < length l)%nat ->
  mEnd (nth i l d) < mStart (nth j l d).
Proof.
  induction l as [|x rest IH]; intros Hsep i j Hij; simpl in Hij; [lia|].
  destruct Hsep as (Hne & Habove & Hrest).
  destruct j as [|j]; [lia|].
  destruct i as [|i]; simpl.
  - apply (separated_all_above rest (mEnd x) Habove Hrest).
    apply nth_In. lia.
  - apply IH; [exact Hrest | lia].
Qed.

(** Every tracker built from the empty one by inserts is separated. *)
Lemma inserts_separated (rs : list (Z * Z)) :
  Forall (fun r => 0 <= snd r) rs ->
  separated (fold_left (fun l r => insert (fst r) (snd r) l) rs empty).
Proof.
  intros Hrs.
  assert (Hgen : forall l, separated l ->
            separated (fold_left (fun l r => insert (fst r) (snd r) l) rs l)).
  { induction Hrs as [|r rs Hr Hrs IH]; intros l Hl; simpl; [exact Hl|].
    apply IH. apply insert_separated; assumption. }
  apply Hgen. exact I.
Qed.

End IntervalListFacts.

(** C6. The tracker's insert coalesces: starting from a tracker whose
    entries neither overlap nor touch, inserting [[a, a+n)] retains the
    addresses retained before and those of [[a, a+n)], and keeps the
    property that no two retained entries overlap or touch; inserting the same range a
    second time changes nothing, so the count after both inserts equals the
    count after one, and on an empty tracker exactly the one interval
    [[a, a+n)] is retained; [[0,10)] then [[10,20)] yields the single
    interval [[0,20)]; [[0,10)] then [[5,15)] yields the single interval
    [[0,15)]; inserting with size 0 changes nothing. *)
Theorem insert_coalesces (l : IntervalList.t) (a n : Z) :
  IntervalList.separated l -> 0 < n ->
  (forall x, IntervalList.member x (IntervalList.insert a n l) <->
             IntervalList.member x l \/ a <= x < a + n) /\
  (forall d i j, (i < j < length (IntervalList.insert a n l))%nat ->
     mEnd (nth i (IntervalList.insert a n l) d)
       < mStart (nth j (IntervalList.insert a n l) d)) /\
  IntervalList.insert a n (IntervalList.insert a n l)
    = IntervalList.insert a n l /\
  IntervalList.count (IntervalList.insert a n (IntervalList.insert a n l))
    = IntervalList.count (IntervalList.insert a n l) /\
  IntervalList.insert a n (IntervalList.insert a n IntervalList.empty)
    = [mkInterval a (a + n)] /\
  IntervalList.insert 10 10 (IntervalList.insert 0 10 IntervalList.empty)
    = [mkInterval 0 20] /\
  IntervalList.insert 5 10 (IntervalList.insert 0 10 IntervalList.empty)
    = [mkInterval 0 15] /\
  IntervalList.insert a 0 l = l.
Proof.
  intros Hsep Hn.
  assert (Hidem : IntervalList.insert a n (IntervalList.insert a n l)
                  = IntervalList.insert a n l)
    by (apply insert_idempotent; [lia | exact Hsep]).
  split; [intros x; apply insert_member; lia|].
  repeat split.
  - intros d i j Hij. apply separated_nth; [|exact Hij].
    apply insert_separated; [lia | exact Hsep].
  - exact Hidem.
  - now rewrite Hidem.
  - rewrite insert_idempotent by (simpl; auto; lia).
    unfold IntervalList.insert. destruct (Z.eqb_spec n 0); [lia|reflexivity].
Qed.

Lemma insert_coalesces_witness :
  IntervalList.insert 32 8
    (IntervalList.insert 32 8 [mkInterval 0 16; mkInterval 40 48])
  = [mkInterval 0 16; mkInterval 32 48].
Proof.
  pose proof (insert_coalesces [mkInterval 0 16; mkInterval 40 48] 32 8) as H.
  destruct H as (_ & _ & H & _).
  - simpl. lia.
  - lia.
  - rewrite H. reflexivity.
Defined.

(* ================================================================== *)
(** * Memory                                                            *)
(* ================================================================== *)

Lemma PoolId_eqb_eq (p q : PoolId) : PoolId_eqb p q = true <-> p = q.
Proof.
  destruct p as [|a], q as [|b]; simpl; split; intros Heq;
    try reflexivity; try discriminate.
  - apply Nat.eqb_eq in Heq. now subst.
  - injection Heq as ->. apply Nat.eqb_refl.
Qed.

Lemma PoolId_eqb_refl (p : PoolId) : PoolId_eqb p p = true.
Proof. now apply PoolId_eqb_eq. Qed.

Lemma load_bytes_length (m : Memory) (p : PoolId) (a n : Z) :
  length (load_bytes m p a n) = Z.to_nat n.
Proof. unfold load_bytes. now rewrite length_map, length_seq. Qed.

Lemma nth_load_bytes (m : Memory) (p : PoolId) (a n : Z) (k : nat) (d : byte) :
  (k < Z.to_nat n)%nat ->
  nth k (load_bytes m p a n) d = m p (a + Z.of_nat k).
Proof.
  intros Hk. unfold load_bytes.
  rewrite nth_indep with (d' := m p (a + Z.of_nat 0))
    by (now rewrite length_map, length_seq).
  rewrite (map_nth (fun k => m p (a + Z.of_nat k))).
  now rewrite seq_nth.
Qed.

Lemma load_bytes_ext (m1 m2 : Memory) (p1 p2 : PoolId) (a1 a2 n : Z) :
  (forall k, 0 <= k < n -> m1 p1 (a1 + k) = m2 p2 (a2 + k)) ->
  load_bytes m1 p1 a1 n = load_bytes m2 p2 a2 n.
Proof.
  intros Hext. unfold load_bytes.
  apply map_ext_in. intros k Hk. apply in_seq in Hk.
  apply Hext. lia.
Qed.

Lemma store_bytes_inside (m : Memory) (p : PoolId) (a : Z) (bs : list byte)
  (x : Z) :
  a <= x < a + Z.of_nat (length bs) ->
  store_bytes m p a bs p x = nth (Z.to_nat (x - a)) bs x00.
Proof.
  intros Hx. unfold store_bytes. rewrite PoolId_eqb_refl.
  destruct (Z.leb_spec a x); [|lia].
  destruct (Z.ltb_spec x (a + Z.of_nat (length bs))); [reflexivity | lia].
Qed.

Lemma store_bytes_outside (m : Memory) (p q : PoolId) (a : Z)
  (bs : list byte) (x : Z) :
  ~ (q = p /\ a <= x < a + Z.of_nat (length bs)) ->
  store_bytes m p a bs q x = m q x.
Proof.
  intros Hout. unfold store_bytes.
  destruct (PoolId_eqb q p) eqn:Hp; [|reflexivity].
  apply PoolId_eqb_eq in Hp.
  destruct (Z.leb_spec a x); [|reflexivity].
  destruct (Z.ltb_spec x (a + Z.of_nat (length bs))); [|reflexivity].
  exfalso. apply Hout. split; [exact Hp | lia].
Qed.

Lemma load_store_same (m : Memory) (p : PoolId) (a : Z) (bs : list byte) :
  load_bytes (store_bytes m p a bs) p a (Z.of_nat (length bs)) = bs.
Proof.
  apply nth_ext with (d := x00) (d' := x00).
  - rewrite load_bytes_length. lia.
  - intros k Hk. rewrite load_bytes_length in Hk.
    rewrite nth_load_bytes by exact Hk.
    rewrite store_bytes_inside by lia.
    f_equal. lia.
Qed.

Section SliceFacts.
Context {T : Type} `{Storable T}.

(** [dst[i] = v; dst[i]] reads [v] back. *)
Lemma slice_get_set (m : Memory) (dst : Slice T) (i : Z) (v : T) :
  slice_get (slice_set m dst i v) dst i = v.
Proof.
  unfold slice_get, slice_set.
  rewrite <- (encode_length v), load_store_same.
  apply decode_encode.
Qed.

(** [dst[i] = v] touches the bytes of element [i] only. *)
Lemma slice_set_elsewhere (m : Memory) (dst : Slice T) (i : Z) (v : T)
  (q : PoolId) (x : Z) :
  ~ (q = mPool dst /\ slice_index dst i <= x < slice_index dst i + sizeof T) ->
  slice_set m dst i v q x = m q x.
Proof.
  intros Hout. unfold slice_set. apply store_bytes_outside.
  now rewrite encode_length.
Qed.

(** After [src.copy(dst, 0, c, 0)] the first [c] elements of [dst] are
    those [src] had. *)
Lemma slice_copy_elements (m : Memory) (src dst : Slice T) (c k : Z) :
  0 <= k < c ->
  slice_get (slice_copy m src dst 0 c 0) dst k = slice_get m src k.
Proof.
  intros Hk. pose proof (@sizeof_pos T _) as Hsz.
  unfold slice_get, slice_copy. f_equal.
  apply load_bytes_ext. intros j Hj.
  unfold slice_index.
  rewrite store_bytes_inside
    by (rewrite load_bytes_length; nia).
  rewrite nth_load_bytes by nia.
  f_equal. nia.
Qed.

(** [src.copy(dst, 0, c, 0)] touches the first [c] elements of [dst]
    only. *)
Lemma slice_copy_elsewhere (m : Memory) (src dst : Slice T) (c : Z)
  (q : PoolId) (x : Z) :
  0 <= c ->
  ~ (q = mPool dst /\ mBase dst <= x < mBase dst + c * sizeof T) ->
  slice_copy m src dst 0 c 0 q x = m q x.
Proof.
  intros Hc Hout. pose proof (@sizeof_pos T _) as Hsz.
  unfold slice_copy. apply store_bytes_outside.
  rewrite load_bytes_length. unfold slice_index.
  intros (Hq & Hx). apply Hout. split; [exact Hq | nia].
Qed.

(** A copy into a slice that shares no byte with [src] leaves the
    elements of [src] as they were. *)
Lemma slice_copy_source_kept (m : Memory) (src dst : Slice T) (c k : Z) :
  slices_disjoint src dst ->
  0 <= c <= slice_count dst -> 0 <= k < slice_count src ->
  slice_get (slice_copy m src dst 0 c 0) src k = slice_get m src k.
Proof.
  intros Hdis Hc Hk. pose proof (@sizeof_pos T _) as Hsz.
  unfold slice_get. f_equal. apply load_bytes_ext. intros j Hj.
  apply slice_copy_elsewhere; [lia|].
  unfold slices_disjoint, slice_end, slice_index, slice_count in *.
  intros (Hq & Hx). destruct Hdis as [Hp | [Hlo | Hhi]];
    [congruence | nia | nia].
Qed.

End SliceFacts.

(* ================================================================== *)
(** * The policy gate                                                   *)
(* ================================================================== *)

Section GateFacts.
Context {T : Type} `{Storable T}.

Lemma shouldObserve_eq (s : Slice T) (w : World) :
  shouldObserve s w
  = Ok (mObserveApplicationPool (observer w) && isApplicationPool s, w).
Proof. reflexivity. Qed.

Lemma read_slice_eq (s : Slice T) (w : World) :
  read_slice s w =
  if mObserveApplicationPool (observer w) && isApplicationPool s
  then read (slice_begin s) (wrap64 (slice_count s * sizeof T)) w
  else Ok (tt, w).
Proof.
  unfold read_slice, bind. rewrite shouldObserve_eq.
  destruct (_ && _); reflexivity.
Qed.

Lemma write_slice_eq (s : Slice T) (w : World) :
  write_slice s w =
  if mObserveApplicationPool (observer w) && isApplicationPool s
  then write (slice_begin s) (wrap64 (slice_count s * sizeof T)) w
  else Ok (tt, w).
Proof.
  unfold write_slice, bind. rewrite shouldObserve_eq.
  destruct (_ && _); reflexivity.
Qed.

End GateFacts.

(** C2. [shouldObserve(s)] returns true exactly when the
    observeApplicationPool flag is set and [s] lives in the application
    pool.  Consequently, for an application-owned slice: with the flag
    off, [read(slice)] and [write(slice)] leave the observer, and so the
    tracker, as it was; with the flag on, both insert the slice's extent
    [[begin, begin + count * sizeof(T))] into the tracker, which then
    covers that extent whenever it is not empty. *)
Theorem shouldObserve_gates_slices {T : Type} `{Storable T}
  (s : Slice T) (w : World) :
  (exists b, shouldObserve s w = Ok (b, w) /\
     (b = true <->
      mObserveApplicationPool (observer w) = true /\
      isApplicationPool s = true)) /\
  (isApplicationPool s = true ->
   mObserveApplicationPool (observer w) = false ->
   read_slice s w = Ok (tt, w) /\ write_slice s w = Ok (tt, w)) /\
  (isApplicationPool s = true ->
   mObserveApplicationPool (observer w) = true ->
   exists w',
     read_slice s w = Ok (tt, w') /\ write_slice s w = Ok (tt, w') /\
     pending w' =
       IntervalList.insert (slice_begin s)
         (wrap64 (slice_count s * sizeof T)) (pending w) /\
     (wrap64 (slice_count s * sizeof T) <> 0 ->
      IntervalList.covers (pending w') (slice_begin s)
        (slice_begin s + wrap64 (slice_count s * sizeof T)))).
Proof.
  split; [|split].
  - eexists. split; [apply shouldObserve_eq|].
    apply andb_true_iff.
  - intros Happ Hoff. rewrite read_slice_eq, write_slice_eq, Hoff. auto.
  - intros Happ Hon. rewrite read_slice_eq, write_slice_eq, Hon, Happ.
    simpl. eexists. split; [reflexivity|]. split; [reflexivity|].
    split; [reflexivity|].
    intros Hne. simpl. now apply insert_covers.
Qed.

Lemma shouldObserve_gates_slices_witness :
  (exists w', read_slice app_chars (fresh_world true zero_memory)
              = Ok (tt, w') /\
              pending w' = [mkInterval 4096 4100]) /\
  write_slice app_chars (fresh_world false zero_memory)
  = Ok (tt, fresh_world false zero_memory).
Proof.
  split.
  - destruct (shouldObserve_gates_slices app_chars
                (fresh_world true zero_memory)) as (_ & _ & Hon).
    destruct Hon as (w' & Hr & _ & Hp & _); [reflexivity | reflexivity |].
    exists w'. split; [exact Hr|]. rewrite Hp. reflexivity.
  - destruct (shouldObserve_gates_slices app_chars
                (fresh_world false zero_memory)) as (_ & Hoff & _).
    destruct Hoff as (_ & Hw); [reflexivity | reflexivity |]. exact Hw.
Defined.

(* ================================================================== *)
(** * Element writes and copies                                         *)
(* ================================================================== *)

Section CopyFacts.
Context {T : Type} `{Storable T}.

Lemma write_index_eq (dst : Slice T) (i : Z) (v : T) (w : World) :
  write_index dst i v w =
  if observed dst w
  then write (slice_index dst i) (sizeof T) w
  else Ok (tt, with_memory (fun m => slice_set m dst i v) w).
Proof.
  unfold write_index, bind, observed. rewrite shouldObserve_eq.
  destruct (_ && _); reflexivity.
Qed.

Lemma after_read_memory (src : Slice T) (w : World) :
  memory (after_read src w) = memory w.
Proof. unfold after_read. destruct (observed src w); reflexivity. Qed.

Lemma after_read_pools (src : Slice T) (w : World) :
  pools (after_read src w) = pools w.
Proof. unfold after_read. destruct (observed src w); reflexivity. Qed.

Lemma after_read_observed (src s : Slice T) (w : World) :
  observed s (after_read src w) = observed s w.
Proof. unfold after_read. destruct (observed src w); reflexivity. Qed.

Lemma after_read_pending (src : Slice T) (w : World) :
  pending (after_read src w) =
  if observed src w
  then IntervalList.insert (slice_begin src)
         (wrap64 (slice_count src * sizeof T)) (pending w)
  else pending w.
Proof. unfold after_read. destruct (observed src w); reflexivity. Qed.

Lemma read_slice_after_read (src : Slice T) (w : World) :
  read_slice src w = Ok (tt, after_read src w).
Proof.
  rewrite read_slice_eq. unfold after_read, observed.
  destruct (_ && _); reflexivity.
Qed.

Lemma copy_count_min (a b : Z) : (if a <? b then a else b) = Z.min a b.
Proof. destruct (Z.ltb_spec a b); lia. Qed.

Lemma copy_eq (dst src : Slice T) (w : World) :
  copy dst src w =
  Ok (dst,
      if observed dst w
      then after_read src w
      else with_memory
             (fun m => slice_copy m src dst 0
                         (Z.min (slice_count src) (slice_count dst)) 0)
             (after_read src w)).
Proof.
  unfold copy, bind. rewrite read_slice_after_read, shouldObserve_eq.
  fold (observed dst (after_read src w)). rewrite after_read_observed.
  destruct (observed dst w); simpl; [reflexivity|].
  unfold modify. now rewrite copy_count_min.
Qed.

End CopyFacts.

(** The two branches of the guard of [write(dst, i, v)] and of
    [copy(dst, src)].  When [shouldObserve(dst)] holds (the
    destination is application-owned and the application pool is being
    observed), [write(dst, i, v)] and [copy(dst, src)] leave memory, and so
    the bytes of [dst], unchanged.  When [shouldObserve(dst)] does not hold
    (the destination is not application-owned, or the application pool is
    not being observed), [write(dst, i, v)] stores [v] at element [i], and
    [copy(dst, src)] makes the first [min(src.count, dst.count)] elements
    of [dst] equal to those [src] had, element for element; they equal
    those [src] has afterwards too when the two slices share no byte. *)
Theorem write_and_copy_mutate_unobserved_only {T : Type} `{Storable T}
  (dst src : Slice T) (i : Z) (v : T) (w : World) :
  (observed dst w = true ->
   (exists w', write_index dst i v w = Ok (tt, w') /\
               memory w' = memory w) /\
   (exists w', copy dst src w = Ok (dst, w') /\ memory w' = memory w)) /\
  (observed dst w = false ->
   (exists w', write_index dst i v w = Ok (tt, w') /\
               slice_get (memory w') dst i = v) /\
   (exists w', copy dst src w = Ok (dst, w') /\
      forall k, 0 <= k < Z.min (slice_count src) (slice_count dst) ->
        slice_get (memory w') dst k = slice_get (memory w) src k /\
        (slices_disjoint src dst ->
         slice_get (memory w') dst k = slice_get (memory w') src k))).
Proof.
  split; intros Hobs.
  - split; eexists.
    + rewrite write_index_eq, Hobs. split; reflexivity.
    + rewrite copy_eq, Hobs. split; [reflexivity|].
      apply after_read_memory.
  - split; eexists.
    + rewrite write_index_eq, Hobs. split; [reflexivity|].
      apply slice_get_set.
    + rewrite copy_eq, Hobs. split; [reflexivity|].
      intros k Hk. simpl. rewrite after_read_memory.
      split; [now apply slice_copy_elements|].
      intros Hdis. rewrite slice_copy_elements by exact Hk.
      symmetry. apply slice_copy_source_kept; [exact Hdis | lia | lia].
Qed.

Lemma write_and_copy_mutate_unobserved_only_witness :
  (exists w', write_index app_chars 1 x41 (fresh_world true abc_memory)
              = Ok (tt, w') /\
              memory w' = abc_memory) /\
  (exists w', copy app_chars spy_chars (fresh_world true abc_memory)
              = Ok (app_chars, w') /\
              memory w' = abc_memory) /\
  (exists w', write_index spy_chars 1 x41 (fresh_world true abc_memory)
              = Ok (tt, w') /\
              slice_get (memory w') spy_chars 1 = x41) /\
  (exists w', copy spy_chars app_chars (fresh_world true abc_memory)
              = Ok (spy_chars, w') /\
              slice_get (memory w') spy_chars 0 = x61 /\
              slice_get (memory w') spy_chars 1 = x62 /\
              slice_get (memory w') spy_chars 2 = x63).
Proof.
  destruct (write_and_copy_mutate_unobserved_only app_chars spy_chars
              1 x41 (fresh_world true abc_memory)) as (Hon & _).
  destruct Hon as (Hw & Hc); [reflexivity|].
  destruct (write_and_copy_mutate_unobserved_only spy_chars app_chars
              1 x41 (fresh_world true abc_memory)) as (_ & Hoff).
  destruct Hoff as (Hw' & w' & Hc' & Hel); [reflexivity|].
  split; [exact Hw|]. split; [exact Hc|]. split; [exact Hw'|].
  exists w'. split; [exact Hc'|].
  split; [|split].
  - apply (Hel 0). simpl. lia.
  - apply (Hel 1). simpl. lia.
  - apply (Hel 2). simpl. lia.
Defined.

(** C1, where the code breaks it.  On an observer constructed with
    observeApplicationPool off, [write(dst, 1, 'A')] and [copy(dst, src)]
    on an application-owned [dst] take the storing branch of the guard
    [!shouldObserve(dst)] and change the bytes of [dst], against the comment
    both guards carry, "The spy must not mutate data in the application
    pool". *)
Lemma application_memory_mutated_when_unobserved :
  isApplicationPool app_chars = true /\
  (exists w',
     write_index app_chars 1 x41 (fresh_world false zero_memory)
     = Ok (tt, w') /\
     slice_bytes (memory w') app_chars
     <> slice_bytes (memory (fresh_world false zero_memory)) app_chars) /\
  (exists w',
     copy app_chars (mkSlice 8192 4 ApplicationPool)
       (fresh_world false abc_memory)
     = Ok (app_chars, w') /\
     slice_bytes (memory w') app_chars
     <> slice_bytes (memory (fresh_world false abc_memory)) app_chars).
Proof.
  split; [reflexivity|].
  split; eexists; (split; [reflexivity|]); vm_compute; discriminate.
Qed.

(** What [copy(dst, src)] does.  It reports no error and
    returns [dst]; it records the extent of [src] in the tracker when
    [shouldObserve(src)] holds and leaves the tracker alone otherwise; when
    [shouldObserve(dst)] holds it leaves memory unchanged; when
    [shouldObserve(dst)] does not hold (the destination is not
    application-owned, or the application pool is not being observed) it
    copies exactly [min(src.count, dst.count)] elements: the first
    [min(src.count, dst.count)] elements of [dst] become those [src] had and
    no other byte changes. *)
Theorem copy_truncates_and_returns_dst {T : Type} `{Storable T}
  (dst src : Slice T) (w : World) :
  0 <= slice_count src -> 0 <= slice_count dst ->
  exists w',
    copy dst src w = Ok (dst, w') /\
    pending w' =
      (if observed src w
       then IntervalList.insert (slice_begin src)
              (wrap64 (slice_count src * sizeof T)) (pending w)
       else pending w) /\
    (observed dst w = true -> memory w' = memory w) /\
    (observed dst w = false ->
     (forall k, 0 <= k < Z.min (slice_count src) (slice_count dst) ->
        slice_get (memory w') dst k = slice_get (memory w) src k) /\
     (forall q x,
        ~ (q = mPool dst /\
           mBase dst <= x
             < mBase dst
               + Z.min (slice_count src) (slice_count dst) * sizeof T) ->
        memory w' q x = memory w q x)).
Proof.
  intros Hsrc Hdst. eexists. split; [apply copy_eq|].
  destruct (observed dst w) eqn:Hobs.
  - split; [apply after_read_pending|].
    split; [intros _; apply after_read_memory | discriminate].
  - split; [apply after_read_pending|].
    split; [discriminate|]. intros _. simpl. rewrite after_read_memory.
    split.
    + intros k Hk. now apply slice_copy_elements.
    + intros q x Hout. apply slice_copy_elsewhere; [lia | exact Hout].
Qed.

(** [copy(dst[5], src[8])] copies five elements and reports no error:
    of the eight bytes at 4096, "abc" and five zeros, the five first ones
    reach [dst], the byte after them in the pool of [dst] stays, and the
    eight bytes of [src] are recorded. *)
Lemma copy_truncates_and_returns_dst_witness :
  exists w',
    copy spy_chars5 (mkSlice 4096 8 ApplicationPool)
      (mkWorld (construct true) abc_memory [8; 5])
    = Ok (spy_chars5, w') /\
    pending w' = [mkInterval 4096 4104] /\
    slice_get (memory w') spy_chars5 0 = x61 /\
    slice_get (memory w') spy_chars5 1 = x62 /\
    slice_get (memory w') spy_chars5 2 = x63 /\
    slice_get (memory w') spy_chars5 4 = x00 /\
    memory w' (SpyPool 1) 5 = abc_memory (SpyPool 1) 5.
Proof.
  destruct (copy_truncates_and_returns_dst spy_chars5
              (mkSlice 4096 8 ApplicationPool)
              (mkWorld (construct true) abc_memory [8; 5]))
    as (w' & Hc & Hp & _ & Hoff); [simpl; lia | simpl; lia |].
  destruct Hoff as (Hin & Hout); [reflexivity|].
  exists w'. split; [exact Hc|]. split; [exact Hp|].
  split; [apply (Hin 0); simpl; lia|].
  split; [apply (Hin 1); simpl; lia|].
  split; [apply (Hin 2); simpl; lia|].
  split; [apply (Hin 4); simpl; lia|].
  apply Hout. simpl. lia.
Defined.

(** C3, where the code breaks it.  On an observer constructed with
    observeApplicationPool off, [copy(dst, src)] with an application-owned
    [dst] takes the copying branch of the guard [!shouldObserve(dst)] and
    overwrites the two bytes of [dst] with those of [src], against the
    comment on the guard, "The spy must not mutate data in the application
    pool". *)
Lemma copy_into_unobserved_application_slice :
  isApplicationPool (mkSlice 8192 2 ApplicationPool : Slice byte) = true /\
  exists w',
    copy (mkSlice 8192 2 ApplicationPool) app_chars
      (fresh_world false abc_memory)
    = Ok (mkSlice 8192 2 ApplicationPool, w') /\
    memory (fresh_world false abc_memory) ApplicationPool 8192 = x00 /\
    memory w' ApplicationPool 8192 = x61 /\
    memory w' ApplicationPool 8193 = x62.
Proof.
  split; [reflexivity|].
  eexists. split; [reflexivity|]. repeat split.
Qed.

(* ================================================================== *)
(** * Clones                                                            *)
(* ================================================================== *)

Section CloneFacts.
Context {T : Type} `{Storable T}.

(** The world after [Pool::create(size)]. *)
Lemma make_eq (count : Z) (w : World) :
  make (T := T) count w =
  Ok (mkSlice 0 count (SpyPool (length (pools w))),
      mkWorld (observer w) (memory w)
        (pools w ++ [wrap64 (count * sizeof T)])).
Proof. reflexivity. Qed.

Lemma clone_eq (src : Slice T) (w : World) :
  clone src w =
  Ok (mkSlice 0 (slice_count src) (SpyPool (length (pools w))),
      with_memory
        (fun m => slice_copy m src
                    (mkSlice 0 (slice_count src) (SpyPool (length (pools w))))
                    0 (slice_count src) 0)
        (after_read src
           (mkWorld (observer w) (memory w)
              (pools w ++ [wrap64 (slice_count src * sizeof T)])))).
Proof.
  unfold clone, bind. rewrite make_eq, copy_eq.
  unfold observed at 1. simpl. rewrite andb_false_r.
  unfold slice_count at 1 2. simpl. now rewrite Z.min_id.
Qed.

Lemma fresh_pool_differs (p : PoolId) (w : World) :
  pool_live p w -> SpyPool (length (pools w)) <> p.
Proof.
  destruct p as [|id]; simpl; intros Hlive Heq; [discriminate|].
  injection Heq as Heq. lia.
Qed.

End CloneFacts.

(** C4, as the code has it.  For every slice [src] whose pool exists,
    [clone(src)] records the extent of [src] in the tracker when
    [shouldObserve(src)] holds and leaves the tracker alone otherwise; it
    returns a slice with the same element count, owned by a pool different
    from the one that owns [src] and never classified as application-owned,
    whose elements all equal those of [src], which are left as they
    were. *)
Theorem clone_is_independent {T : Type} `{Storable T}
  (src : Slice T) (w : World) :
  pool_live (mPool src) w ->
  exists dst w',
    clone src w = Ok (dst, w') /\
    pending w' =
      (if observed src w
       then IntervalList.insert (slice_begin src)
              (wrap64 (slice_count src * sizeof T)) (pending w)
       else pending w) /\
    slice_count dst = slice_count src /\
    mPool dst <> mPool src /\
    isApplicationPool dst = false /\
    (forall k, 0 <= k < slice_count src ->
       slice_get (memory w') dst k = slice_get (memory w) src k /\
       slice_get (memory w') src k = slice_get (memory w) src k).
Proof.
  intros Hlive. do 2 eexists. split; [apply clone_eq|].
  split; [|split; [reflexivity|]].
  { unfold pending. simpl. fold (pending (after_read src
      (mkWorld (observer w) (memory w)
         (pools w ++ [wrap64 (slice_count src * sizeof T)])))).
    rewrite after_read_pending. reflexivity. }
  split; [apply fresh_pool_differs; exact Hlive|].
  split; [reflexivity|].
  intros k Hk. simpl. rewrite after_read_memory. simpl. split.
  - now apply slice_copy_elements.
  - unfold slice_get. f_equal. apply load_bytes_ext. intros j Hj.
    unfold slice_copy. apply store_bytes_outside. simpl.
    intros (Heq & _). symmetry in Heq.
    now apply (fresh_pool_differs _ _ Hlive).
Qed.

Lemma clone_is_independent_witness :
  exists w',
    clone app_chars (fresh_world true abc_memory)
    = Ok (mkSlice 0 4 (SpyPool 0), w') /\
    pending w' = [mkInterval 4096 4100] /\
    slice_bytes (memory w') (mkSlice 0 4 (SpyPool 0) : Slice byte)
    = [x61; x62; x63; x00].
Proof.
  destruct (clone_is_independent app_chars (fresh_world true abc_memory))
    as (dst & w' & Hc & Hp & _); [exact I|].
  rewrite clone_eq in Hc. injection Hc as <- <-.
  eexists. split; [apply clone_eq|]. split; [exact Hp|]. reflexivity.
Defined.

(** C4 as stated fails: cloning a slice that is not application-owned, or
    cloning while the application pool is not observed, records no read. *)
Lemma clone_of_unobserved_slice_records_nothing :
  (exists dst w',
     clone spy_chars (mkWorld (construct true) abc_memory [4])
     = Ok (dst, w') /\ pending w' = []) /\
  (exists dst w',
     clone app_chars (fresh_world false abc_memory)
     = Ok (dst, w') /\ pending w' = []).
Proof.
  split; do 2 eexists; split; reflexivity.
Qed.

(* ================================================================== *)
(** * Strings                                                           *)
(* ================================================================== *)

(** C9, as the code has it.  For every [Slice<char>], [string(slice)]
    returns the slice's bytes verbatim, all [count] of them whatever their
    values, and leaves memory alone; it records the slice's full extent in
    the tracker when [shouldObserve(slice)] holds and leaves the tracker
    alone otherwise. *)
Theorem string_slice_verbatim (slice : Slice byte) (w : World) :
  0 <= slice_count slice ->
  exists w',
    string_slice slice w = Ok (slice_bytes (memory w) slice, w') /\
    Z.of_nat (length (slice_bytes (memory w) slice)) = slice_count slice /\
    (forall k, (k < length (slice_bytes (memory w) slice))%nat ->
       nth k (slice_bytes (memory w) slice) x00
       = memory w (mPool slice) (slice_begin slice + Z.of_nat k)) /\
    memory w' = memory w /\
    pending w' =
      (if observed slice w
       then IntervalList.insert (slice_begin slice)
              (wrap64 (slice_count slice * sizeof byte)) (pending w)
       else pending w).
Proof.
  intros Hcount. exists (after_read slice w).
  unfold string_slice, bind. rewrite read_slice_after_read.
  unfold gets, ret. rewrite after_read_memory.
  unfold slice_bytes, slice_end, slice_begin, slice_count in *.
  replace (mBase slice + mCount slice * sizeof byte - mBase slice)
    with (mCount slice * sizeof byte) by lia.
  split; [reflexivity|].
  split; [rewrite load_bytes_length; simpl; lia|].
  split.
  - intros k Hk. rewrite load_bytes_length in Hk.
    now apply nth_load_bytes.
  - split; [reflexivity | apply after_read_pending].
Qed.

(** The terminator inside the slice is returned like any other byte. *)
Lemma string_slice_verbatim_witness :
  exists w',
    string_slice app_chars (fresh_world true abc_memory)
    = Ok ([x61; x62; x63; x00], w') /\
    pending w' = [mkInterval 4096 4100].
Proof.
  destruct (string_slice_verbatim app_chars (fresh_world true abc_memory))
    as (w' & Hs & _ & _ & _ & Hp); [simpl; lia|].
  exists w'. split; [exact Hs | exact Hp].
Defined.

(** C9 as stated fails: the string of a slice that is not
    application-owned, or one taken while the application pool is not
    observed, records no read. *)
Lemma string_of_unobserved_slice_records_nothing :
  (exists text w',
     string_slice spy_chars (mkWorld (construct true) abc_memory [4])
     = Ok (text, w') /\ pending w' = []) /\
  (exists text w',
     string_slice app_chars (fresh_world false abc_memory)
     = Ok (text, w') /\ pending w' = []).
Proof.
  split; do 2 eexists; split; reflexivity.
Qed.

Lemma wrap64_small (z : Z) : 0 <= z < 2 ^ 64 -> wrap64 z = z.
Proof. intros Hz. unfold wrap64. now apply Z.mod_small. Qed.

(** The world after [read(str, n + 1)]. *)
Lemma read_eq (base size : Z) (w : World) :
  read base size w =
  Ok (tt, with_observer (fun o =>
            set_pending
              (IntervalList.insert base size (mPendingObservations o)) o) w).
Proof. reflexivity. Qed.

(** With the first zero byte at offset [n], the scan started at any
    offset up to [n] stops at [n], provided the model follows it for the
    remaining [n - i + 1] iterations. *)
Lemma string_loop_finds_terminator (w : World) (str n : Z) :
  n + 1 < 2 ^ 64 ->
  (forall k, 0 <= k < n -> memory w ApplicationPool (str + k) <> x00) ->
  memory w ApplicationPool (str + n) = x00 ->
  forall (fuel : nat) (i : Z),
    0 <= i <= n -> (Z.to_nat (n - i) < fuel)%nat ->
    string_loop fuel str i w =
    Ok (load_bytes (memory w) ApplicationPool str n,
        with_observer (fun o =>
          set_pending
            (IntervalList.insert str (n + 1) (mPendingObservations o)) o) w).
Proof.
  intros Hn Hnonzero Hzero.
  induction fuel as [|fuel IH]; intros i Hi Hfuel; [lia|].
  cbn [string_loop]. unfold bind at 1. unfold gets at 1.
  destruct (Byte.eqb (memory w ApplicationPool (str + i)) x00) eqn:Hbyte.
  - apply byte_dec_bl in Hbyte.
    assert (i = n) as ->.
    { destruct (Z.eq_dec i n) as [|Hne]; [assumption|].
      exfalso. apply (Hnonzero i); [lia | exact Hbyte]. }
    rewrite wrap64_small by lia. reflexivity.
  - assert (i <> n) as Hne.
    { intros ->. rewrite Hzero in Hbyte. discriminate. }
    rewrite wrap64_small by lia.
    apply IH; lia.
Qed.

Lemma load_bytes_In (m : Memory) (p : PoolId) (a n : Z) (b : byte) :
  In b (load_bytes m p a n) -> exists k, 0 <= k < n /\ b = m p (a + k).
Proof.
  unfold load_bytes. intros Hin. apply in_map_iff in Hin.
  destruct Hin as (k & <- & Hk). apply in_seq in Hk.
  exists (Z.of_nat k). split; [lia | reflexivity].
Qed.

(** C8.  [string(cPointer)] fails with the null-pointer abort when
    [cPointer] is null.  Otherwise, when the first zero byte of the buffer
    is at offset [n], it returns, once the scan has been followed for its
    [n + 1] iterations, the [n] bytes that precede the terminator, none of
    them zero, and its one effect is that of [read(cPointer, n + 1)]: the
    [n + 1] bytes starting at [cPointer] are inserted into the tracker. *)
Theorem string_cstr_reads_through_terminator
  (w : World) (str n : Z) (fuel : nat) :
  string_cstr fuel 0 w = Abort NullPointer /\
  (str <> 0 -> 0 <= n -> n + 1 < 2 ^ 64 ->
   (forall k, 0 <= k < n -> memory w ApplicationPool (str + k) <> x00) ->
   memory w ApplicationPool (str + n) = x00 ->
   (Z.to_nat n < fuel)%nat ->
   exists text w',
     string_cstr fuel str w = Ok (text, w') /\
     text = load_bytes (memory w) ApplicationPool str n /\
     Z.of_nat (length text) = n /\
     ~ In x00 text /\
     read str (n + 1) w = Ok (tt, w') /\
     pending w' = IntervalList.insert str (n + 1) (pending w) /\
     IntervalList.covers (pending w') str (str + (n + 1)) /\
     memory w' = memory w).
Proof.
  split; [reflexivity|].
  intros Hstr Hn0 Hn Hnonzero Hzero Hfuel.
  do 2 eexists. split.
  - unfold string_cstr, bind, checkNotNull.
    destruct (Z.eqb_spec str 0); [contradiction|]. unfold ret.
    apply (string_loop_finds_terminator w str n Hn Hnonzero Hzero);
      [lia | now rewrite Z.sub_0_r].
  - split; [reflexivity|].
    split; [rewrite load_bytes_length; lia|].
    split.
    { intros Hin. apply load_bytes_In in Hin.
      destruct Hin as (k & Hk & Heq). now apply (Hnonzero k Hk). }
    split; [apply read_eq|].
    split; [reflexivity|].
    split; [|reflexivity].
    apply insert_covers. lia.
Qed.

(** [string("abc\0")] records a read of exactly 4 bytes and returns the 3
    characters that precede the terminator. *)
Lemma string_cstr_reads_through_terminator_witness :
  exists w',
    string_cstr 4 4096 (fresh_world true abc_memory)
    = Ok ([x61; x62; x63], w') /\
    pending w' = [mkInterval 4096 4100].
Proof.
  destruct (string_cstr_reads_through_terminator
              (fresh_world true abc_memory) 4096 3 4) as (_ & Hok).
  destruct Hok as (text & w' & Hs & Htext & _ & _ & _ & Hp & _).
  - lia.
  - lia.
  - lia.
  - intros k Hk.
    assert (k = 0 \/ k = 1 \/ k = 2) as [-> | [-> | ->]] by lia;
      simpl; discriminate.
  - reflexivity.
  - simpl. lia.
  - subst text. exists w'. split; [exact Hs | exact Hp].
Defined.

(* ================================================================== *)
(** * Materialization                                                   *)
(* ================================================================== *)

Lemma update_nth_length {A : Type} (l : list A) :
  forall n x, length (update_nth n x l) = length l.
Proof.
  induction l as [|y t IH]; intros [|n] x; simpl; auto.
Qed.

Lemma nth_update_nth {A : Type} (l : list A) :
  forall n x d, (n < length l)%nat -> nth n (update_nth n x l) d = x.
Proof.
  induction l as [|y t IH]; intros [|n] x d Hn; simpl in *; try lia; auto.
  apply IH. lia.
Qed.

Lemma update_nth_last {A : Type} (l : list A) (x y : A) :
  update_nth (length l) x (l ++ [y]) = l ++ [x].
Proof. induction l as [|z t IH]; simpl; [reflexivity | now rewrite IH]. Qed.

Lemma count_pos_cons (l : IntervalList.t) :
  0 < IntervalList.count l -> exists i rest, l = i :: rest.
Proof.
  destruct l as [|i rest]; unfold IntervalList.count; simpl; [lia|].
  intros _. now exists i, rest.
Qed.

Lemma merge_nonempty (l : IntervalList.t) :
  forall s e, 0 < IntervalList.count (IntervalList.merge s e l).
Proof.
  unfold IntervalList.count.
  induction l as [|i rest IH]; intros s e; simpl; [lia|].
  destruct (mEnd i <? s); [simpl; lia|].
  destruct (e <? mStart i); [simpl; lia|]. apply IH.
Qed.

Lemma observeReads_empty (w : World) :
  IntervalList.count (pending w) = 0 -> observeReads w = Ok (tt, w).
Proof.
  intros Hc. unfold observeReads, bind, gets. now rewrite Hc.
Qed.

Lemma observeWrites_empty (w : World) :
  IntervalList.count (pending w) = 0 -> observeWrites w = Ok (tt, w).
Proof.
  intros Hc. unfold observeWrites, bind, gets. now rewrite Hc.
Qed.

Lemma observeReads_nonempty (w : World) :
  0 < IntervalList.count (pending w) -> record_valid w ->
  exists w',
    observeReads w = Ok (tt, w') /\
    pending w' = [] /\
    record_kept_or_created w w' /\
    drained_into_reads w w' /\
    rest_untouched w w'.
Proof.
  intros Hc Hvalid. destruct (count_pos_cons _ Hc) as (i & rest & Hp).
  destruct w as [[name flag a obs pend ext err] m ps].
  unfold pending, record_valid, record_kept_or_created, drained_into_reads,
    rest_untouched, current_record in *.
  simpl in *. subst pend.
  unfold observeReads, bind, gets, pending. simpl.
  destruct obs as [h|]; simpl; eexists; (split; [reflexivity|]); simpl.
  - rewrite update_nth_length, nth_update_nth by exact Hvalid. intuition.
  - rewrite update_nth_last, length_app. rewrite !nth_middle. simpl.
    rewrite Nat.add_1_r. intuition.
Qed.

Lemma observeWrites_nonempty (w : World) :
  0 < IntervalList.count (pending w) -> record_valid w ->
  exists w',
    observeWrites w = Ok (tt, w') /\
    pending w' = [] /\
    record_kept_or_created w w' /\
    drained_into_writes w w' /\
    rest_untouched w w'.
Proof.
  intros Hc Hvalid. destruct (count_pos_cons _ Hc) as (i & rest & Hp).
  destruct w as [[name flag a obs pend ext err] m ps].
  unfold pending, record_valid, record_kept_or_created, drained_into_writes,
    rest_untouched, current_record in *.
  simpl in *. subst pend.
  unfold observeWrites, bind, gets, pending. simpl.
  destruct obs as [h|]; simpl; eexists; (split; [reflexivity|]); simpl.
  - rewrite update_nth_length, nth_update_nth by exact Hvalid. intuition.
  - rewrite update_nth_last, length_app. rewrite !nth_middle. simpl.
    rewrite Nat.add_1_r. intuition.
Qed.

(** C7.  After [observeReads()], [observeWrites()] or
    [observe(targetList)] the tracker is empty, whatever it held before;
    each of them returns. *)
Theorem materialization_empties_tracker
  (w : World) (targetList : list Observation) :
  (exists w', observeReads w = Ok (tt, w') /\
              IntervalList.count (pending w') = 0) /\
  (exists w', observeWrites w = Ok (tt, w') /\
              IntervalList.count (pending w') = 0) /\
  (exists l w', observe targetList w = Ok (l, w') /\
                IntervalList.count (pending w') = 0).
Proof.
  destruct w as [[name flag a obs pend ext err] m ps].
  split; [|split].
  - destruct pend as [|i rest].
    + eexists. split; [apply observeReads_empty|]; reflexivity.
    + unfold observeReads, bind, gets, pending. simpl.
      destruct obs; eexists; split; reflexivity.
  - destruct pend as [|i rest].
    + eexists. split; [apply observeWrites_empty|]; reflexivity.
    + unfold observeWrites, bind, gets, pending. simpl.
      destruct obs; eexists; split; reflexivity.
  - do 2 eexists. split; reflexivity.
Qed.

(* ================================================================== *)
(** * The single observation record                                     *)
(* ================================================================== *)

Lemma single_record_valid (w : World) : single_record w -> record_valid w.
Proof.
  unfold single_record, record_valid.
  destruct (mObservations (observer w)); [|trivial].
  intros (-> & -> & _). lia.
Qed.

Lemma single_record_kept (w w' : World) :
  single_record w -> record_kept_or_created w w' -> single_record w'.
Proof.
  unfold single_record, record_kept_or_created.
  destruct (mObservations (observer w)) as [h|].
  - intros (-> & Hlen & Hext) (-> & Hlen' & ->). repeat split; congruence.
  - intros (Hnil & Hext) (-> & Hlen' & ->). rewrite Hnil in *. simpl in *.
    repeat split; [exact Hlen'|]. rewrite filter_app, Hext. reflexivity.
Qed.

Lemma single_record_counts (w : World) :
  single_record w ->
  (records_created w <= 1)%nat /\ (records_attached w <= 1)%nat /\
  records_attached w = records_created w.
Proof.
  unfold single_record, records_created, records_attached.
  destruct (mObservations (observer w)).
  - intros (_ & -> & ->). simpl. lia.
  - intros (-> & ->). simpl. lia.
Qed.

Lemma observeReads_keeps_single_record (w : World) :
  single_record w ->
  exists w', observeReads w = Ok (tt, w') /\ single_record w'.
Proof.
  intros Hinv.
  destruct (Z.eq_dec (IntervalList.count (pending w)) 0) as [Hz|Hnz].
  - exists w. split; [now apply observeReads_empty | exact Hinv].
  - destruct (observeReads_nonempty w) as (w' & Hrun & _ & Hrec & _).
    + unfold IntervalList.count in *. lia.
    + now apply single_record_valid.
    + exists w'. split; [exact Hrun|]. now apply (single_record_kept w).
Qed.

Lemma observeWrites_keeps_single_record (w : World) :
  single_record w ->
  exists w', observeWrites w = Ok (tt, w') /\ single_record w'.
Proof.
  intros Hinv.
  destruct (Z.eq_dec (IntervalList.count (pending w)) 0) as [Hz|Hnz].
  - exists w. split; [now apply observeWrites_empty | exact Hinv].
  - destruct (observeWrites_nonempty w) as (w' & Hrun & _ & Hrec & _).
    + unfold IntervalList.count in *. lia.
    + now apply single_record_valid.
    + exists w'. split; [exact Hrun|]. now apply (single_record_kept w).
Qed.

(** The operation at hand returns a world whose arena, record pointer and
    extras are those of the world it started from. *)
Ltac record_untouched Hinv :=
  eexists; split; [reflexivity | try unfold after_read; exact Hinv].

(** Every operation of a call returns and keeps the invariant. *)
Lemma step_keeps_single_record (op : Op) (w : World) :
  single_record w ->
  exists w', step op w = Ok (tt, w') /\ single_record w'.
Proof.
  intros Hinv.
  destruct op as [base size | base size | | | p | err | name | a b
                 | T ST s | T ST s | T ST s i | T ST s i v
                 | T ST dst src | T ST src]; simpl.
  - record_untouched Hinv.
  - record_untouched Hinv.
  - now apply observeReads_keeps_single_record.
  - now apply observeWrites_keeps_single_record.
  - eexists. split; [reflexivity|].
    unfold single_record in *. simpl. rewrite filter_app. simpl.
    rewrite app_nil_r. exact Hinv.
  - record_untouched Hinv.
  - record_untouched Hinv.
  - record_untouched Hinv.
  - rewrite read_slice_after_read. unfold after_read.
    destruct (observed s w); record_untouched Hinv.
  - rewrite write_slice_eq. fold (observed s w).
    destruct (observed s w); record_untouched Hinv.
  - unfold read_index, bind, gets. rewrite shouldObserve_eq.
    destruct (_ && _); record_untouched Hinv.
  - rewrite write_index_eq.
    destruct (observed s w); record_untouched Hinv.
  - unfold bind. rewrite copy_eq. unfold after_read.
    destruct (observed dst w), (observed src w); record_untouched Hinv.
  - unfold bind. rewrite clone_eq. unfold after_read.
    destruct (observed src _); record_untouched Hinv.
Qed.

Lemma run_keeps_single_record (ops : list Op) :
  forall w, single_record w ->
  exists w', run ops w = Ok (tt, w') /\ single_record w'.
Proof.
  induction ops as [|op rest IH]; intros w Hinv; simpl.
  - exists w. split; [reflexivity | exact Hinv].
  - destruct (step_keeps_single_record op w Hinv) as (w1 & Hstep & Hinv1).
    destruct (IH w1 Hinv1) as (w2 & Hrun & Hinv2).
    exists w2. split; [|exact Hinv2].
    unfold bind. now rewrite Hstep.
Qed.

(** C5.  Whatever operations a call performs on a newly constructed
    observer, and however many of them are [observeReads] or
    [observeWrites], they all return, at most one observation record has
    been created and at most one is attached to the extras; a
    materialization of a non-empty tracker creates and attaches the record
    when there is none and otherwise keeps the record, the arena and the
    extras it found, and in both cases appends what it drains to that
    record's reads or writes; [observeReads] and [observeWrites] on an empty
    tracker change nothing. *)
Theorem at_most_one_record
  (observeApplicationPool : bool) (m : Memory) (ops : list Op) :
  (exists w',
     run ops (fresh_world observeApplicationPool m) = Ok (tt, w') /\
     single_record w' /\
     (records_created w' <= 1)%nat /\ (records_attached w' <= 1)%nat) /\
  (forall w, single_record w -> 0 < IntervalList.count (pending w) ->
     exists w1 w2,
       observeReads w = Ok (tt, w1) /\
       record_kept_or_created w w1 /\ drained_into_reads w w1 /\
       observeWrites w = Ok (tt, w2) /\
       record_kept_or_created w w2 /\ drained_into_writes w w2) /\
  (forall w, IntervalList.count (pending w) = 0 ->
     observeReads w = Ok (tt, w) /\ observeWrites w = Ok (tt, w)).
Proof.
  split; [|split].
  - destruct (run_keeps_single_record ops
                (fresh_world observeApplicationPool m))
      as (w' & Hrun & Hinv).
    { unfold single_record. simpl. split; reflexivity. }
    exists w'. pose proof (single_record_counts w' Hinv). tauto.
  - intros w Hinv Hc. pose proof (single_record_valid w Hinv) as Hvalid.
    destruct (observeReads_nonempty w Hc Hvalid)
      as (w1 & Hr & _ & Hk1 & Hd1 & _).
    destruct (observeWrites_nonempty w Hc Hvalid)
      as (w2 & Hw & _ & Hk2 & Hd2 & _).
    exists w1, w2. repeat split; assumption.
  - intros w Hc. split;
      [now apply observeReads_empty | now apply observeWrites_empty].
Qed.

(** Reads are observed, the call writes, writes are observed: one record,
    attached once. *)
Lemma at_most_one_record_witness :
  exists w',
    run [OpRead 4096 4; OpObserveReads; OpPoke 4097 x41; OpWrite 4096 2;
         OpObserveWrites; OpObserveReads]
      (fresh_world true abc_memory) = Ok (tt, w') /\
    mScratch (observer w') =
      [mkObservations [mkObservation 4096 [x61; x62; x63; x00]]
                      [mkObservation 4096 [x61; x41]]] /\
    mExtras (observer w') = [ScratchPtr 0] /\
    observeReads w' = Ok (tt, w').
Proof.
  destruct (at_most_one_record true abc_memory
              [OpRead 4096 4; OpObserveReads; OpPoke 4097 x41; OpWrite 4096 2;
               OpObserveWrites; OpObserveReads])
    as ((w' & Hrun & _) & _ & Hnoop).
  exists w'. split; [exact Hrun|].
  vm_compute in Hrun. injection Hrun as <-.
  split; [reflexivity|]. split; [reflexivity|].
  apply Hnoop. reflexivity.
Defined.

(* ================================================================== *)
(** * One collection for reads and writes                               *)
(* ================================================================== *)

Lemma insert_nonempty (base size : Z) (l : IntervalList.t) :
  size <> 0 -> 0 < IntervalList.count (IntervalList.insert base size l).
Proof.
  intros Hsz. unfold IntervalList.insert.
  destruct (Z.eqb_spec size 0); [contradiction|]. apply merge_nonempty.
Qed.

(** C10.  [read(base, size)] and [write(base, size)] do the same thing
    to the observer: both insert the range into the one pending
    collection.  So a range recorded by [write] is drained by the next
    [observeReads()] into the record's reads, together with everything else
    that was pending, and a range recorded by [read] is drained by the next
    [observeWrites()] into the record's writes; the other list of the record
    keeps its contents and the tracker is left empty. *)
Theorem reads_and_writes_share_pending (base size : Z) (w : World) :
  read base size w = write base size w /\
  (size <> 0 -> record_valid w ->
   exists w1 w2,
     write base size w = Ok (tt, w1) /\
     pending w1 = IntervalList.insert base size (pending w) /\
     IntervalList.covers (pending w1) base (base + size) /\
     observeReads w1 = Ok (tt, w2) /\
     mReads (current_record w2) =
       mReads (current_record w1) ++ map (snapshot (memory w1)) (pending w1) /\
     mWrites (current_record w2) = mWrites (current_record w1) /\
     pending w2 = []) /\
  (size <> 0 -> record_valid w ->
   exists w1 w2,
     read base size w = Ok (tt, w1) /\
     pending w1 = IntervalList.insert base size (pending w) /\
     IntervalList.covers (pending w1) base (base + size) /\
     observeWrites w1 = Ok (tt, w2) /\
     mWrites (current_record w2) =
       mWrites (current_record w1) ++ map (snapshot (memory w1)) (pending w1) /\
     mReads (current_record w2) = mReads (current_record w1) /\
     pending w2 = []).
Proof.
  split; [reflexivity|].
  split; intros Hsz Hvalid.
  - eexists.
    edestruct (observeReads_nonempty) as (w2 & Hrun & Hp & _ & Hd & _);
      [ | | exists w2; split; [reflexivity|];
            split; [reflexivity|];
            split; [now apply insert_covers|];
            split; [exact Hrun|];
            unfold drained_into_reads in Hd; rewrite Hd; simpl; auto ].
    + simpl. now apply insert_nonempty.
    + exact Hvalid.
  - eexists.
    edestruct (observeWrites_nonempty) as (w2 & Hrun & Hp & _ & Hd & _);
      [ | | exists w2; split; [reflexivity|];
            split; [reflexivity|];
            split; [now apply insert_covers|];
            split; [exact Hrun|];
            unfold drained_into_writes in Hd; rewrite Hd; simpl; auto ].
    + simpl. now apply insert_nonempty.
    + exact Hvalid.
Qed.

(** A range recorded by [write] ends up among the reads when
    [observeReads] is what comes next. *)
Lemma reads_and_writes_share_pending_witness :
  exists w1 w2,
    write 4096 4 (fresh_world true abc_memory) = Ok (tt, w1) /\
    observeReads w1 = Ok (tt, w2) /\
    current_record w2 =
      mkObservations [mkObservation 4096 [x61; x62; x63; x00]] [].
Proof.
  destruct (reads_and_writes_share_pending 4096 4
              (fresh_world true abc_memory)) as (_ & Hw & _).
  destruct Hw as (w1 & w2 & Hw1 & _ & _ & Hobs & Hreads & Hwrites & _);
    [lia | exact I |].
  exists w1, w2. split; [exact Hw1|]. split; [exact Hobs|].
  injection Hw1 as <-.
  destruct (current_record w2) as [reads writes]. simpl in Hreads, Hwrites.
  rewrite Hreads, Hwrites. reflexivity.
Defined.

(* ================================================================== *)
(** * Element reads and writes                                          *)
(* ================================================================== *)

Section ElementFacts.
Context {T : Type} `{Storable T}.

Lemma read_index_eq (src : Slice T) (i : Z) (w : World) :
  read_index src i w =
  Ok (slice_get (memory w) src i,
      if observed src w
      then with_observer (fun o =>
             set_pending
               (IntervalList.insert (slice_index src i) (sizeof T)
                  (mPendingObservations o)) o) w
      else w).
Proof.
  unfold read_index, bind, gets. rewrite shouldObserve_eq.
  fold (observed src w). destruct (observed src w); reflexivity.
Qed.

(** [dst[i] = v] leaves every other element of [dst] as it was. *)
Lemma slice_get_set_other (m : Memory) (dst : Slice T) (i j : Z) (v : T) :
  i <> j -> slice_get (slice_set m dst i v) dst j = slice_get m dst j.
Proof.
  intros Hij. pose proof (@sizeof_pos T _) as Hsz.
  unfold slice_get. f_equal. apply load_bytes_ext. intros k Hk.
  apply slice_set_elsewhere. unfold slice_index.
  intros (_ & Hx). nia.
Qed.

End ElementFacts.

(** X1.  [read(src, i)] returns element [i] of [src] whether or not the
    slice is observed and leaves memory and pools alone; it inserts the
    [sizeof(T)] bytes of that element into the tracker when
    [shouldObserve(src)] holds, and leaves the observer as it was
    otherwise. *)
Theorem read_index_returns_element {T : Type} `{Storable T}
  (src : Slice T) (i : Z) (w : World) :
  exists w',
    read_index src i w = Ok (slice_get (memory w) src i, w') /\
    memory w' = memory w /\ pools w' = pools w /\
    (observed src w = true ->
     pending w' =
       IntervalList.insert (slice_index src i) (sizeof T) (pending w) /\
     IntervalList.covers (pending w')
       (slice_index src i) (slice_index src i + sizeof T)) /\
    (observed src w = false -> w' = w).
Proof.
  eexists. split; [apply read_index_eq|].
  destruct (observed src w); simpl.
  - repeat split; try discriminate.
    apply insert_covers. pose proof (@sizeof_pos T _). lia.
  - repeat split; discriminate.
Qed.

Lemma read_index_returns_element_witness :
  exists w',
    read_index app_chars 2 (fresh_world true abc_memory) = Ok (x63, w') /\
    pending w' = [mkInterval 4098 4099].
Proof.
  destruct (read_index_returns_element app_chars 2
              (fresh_world true abc_memory))
    as (w' & Hr & _ & _ & Hon & _).
  destruct Hon as (Hp & _); [reflexivity|].
  exists w'. split; [exact Hr | exact Hp].
Defined.

(** X2.  On a slice for which [shouldObserve] holds, [write(dst, i, v)]
    does not depend on [v]: the value is neither stored nor recorded, and
    the one effect is the insertion of the [sizeof(T)] bytes of element [i]
    into the tracker, the same effect [read(dst, i)] has. *)
Theorem write_index_observed_drops_value {T : Type} `{Storable T}
  (dst : Slice T) (i : Z) (v v' : T) (w : World) :
  observed dst w = true ->
  write_index dst i v w = write_index dst i v' w /\
  exists w',
    write_index dst i v w = Ok (tt, w') /\
    read_index dst i w = Ok (slice_get (memory w) dst i, w') /\
    pending w' =
      IntervalList.insert (slice_index dst i) (sizeof T) (pending w) /\
    memory w' = memory w.
Proof.
  intros Hobs. rewrite !write_index_eq, read_index_eq, Hobs.
  split; [reflexivity|]. eexists. repeat split.
Qed.

Lemma write_index_observed_drops_value_witness :
  write_index app_chars 1 x41 (fresh_world true abc_memory)
  = write_index app_chars 1 x42 (fresh_world true abc_memory).
Proof.
  destruct (write_index_observed_drops_value app_chars 1 x41 x42
              (fresh_world true abc_memory)) as (Heq & _);
    [reflexivity | exact Heq].
Defined.

(** X3.  On a slice for which [shouldObserve] does not hold,
    [write(dst, i, v)] followed by [read(dst, i)] returns [v], a read of any
    other element returns what it held before the write, and neither call
    touches the observer. *)
Theorem write_then_read_index {T : Type} `{Storable T}
  (dst : Slice T) (i : Z) (v : T) (w : World) :
  observed dst w = false ->
  exists w',
    write_index dst i v w = Ok (tt, w') /\
    observer w' = observer w /\
    read_index dst i w' = Ok (v, w') /\
    (forall j, j <> i ->
       read_index dst j w' = Ok (slice_get (memory w) dst j, w')).
Proof.
  intros Hobs. rewrite write_index_eq, Hobs.
  eexists. split; [reflexivity|]. split; [reflexivity|].
  split.
  - rewrite read_index_eq. unfold observed in *. simpl. rewrite Hobs.
    now rewrite slice_get_set.
  - intros j Hj. rewrite read_index_eq. unfold observed in *. simpl.
    rewrite Hobs. rewrite slice_get_set_other by congruence. reflexivity.
Qed.

Lemma write_then_read_index_witness :
  exists w',
    write_index spy_chars 1 x41 (mkWorld (construct true) abc_memory [4])
    = Ok (tt, w') /\
    read_index spy_chars 1 w' = Ok (x41, w') /\
    read_index spy_chars 2 w' = Ok (x00, w').
Proof.
  destruct (write_then_read_index spy_chars 1 x41
              (mkWorld (construct true) abc_memory [4]))
    as (w' & Hw & _ & Hr & Hother); [reflexivity|].
  exists w'. split; [exact Hw|]. split; [exact Hr|].
  apply (Hother 2). lia.
Defined.

(* ================================================================== *)
(** * What a run keeps                                                  *)
(* ================================================================== *)

(** Brings the world an operation returns into the open: the world and
    the slices are taken apart and every method is replaced with its
    body. *)
Ltac expose_step :=
  repeat match goal with
         | s : Slice _ |- _ => destruct s as [? ? [|?]]
         end;
  unfold step, copy, clone, make, Pool_create, read_slice, write_slice,
    read_index, write_index, shouldObserve, observeReads, observeWrites,
    observe, scratch_create, scratch_load, scratch_store, addExtra,
    setError, setCurrentCommandName, read, write, bind, gets, modify, ret,
    pending, with_observer, with_memory, isApplicationPool,
    IntervalList.count in *;
  simpl in *.

Lemma step_scalars (op : Op) (w : World) :
  exists w',
    step op w = Ok (tt, w') /\
    mObserveApplicationPool (observer w')
      = mObserveApplicationPool (observer w) /\
    mError (observer w') = last_error [op] (mError (observer w)) /\
    mCurrentCommandName (observer w')
      = last_command_name [op] (mCurrentCommandName (observer w)).
Proof.
  destruct w as [[name flag a obs pend ext err] m ps].
  destruct op; destruct flag, pend, obs; expose_step;
    eexists; (split; [reflexivity|]); repeat split.
Qed.

Lemma last_error_cons (op : Op) (rest : list Op) (err : Z) :
  last_error (op :: rest) err = last_error rest (last_error [op] err).
Proof. destruct op; reflexivity. Qed.

Lemma last_command_name_cons (op : Op) (rest : list Op) (n : Z) :
  last_command_name (op :: rest) n
  = last_command_name rest (last_command_name [op] n).
Proof. destruct op; reflexivity. Qed.

Lemma run_cons (op : Op) (rest : list Op) (w w1 : World) :
  step op w = Ok (tt, w1) -> run (op :: rest) w = run rest w1.
Proof. intros Hstep. simpl. unfold bind. now rewrite Hstep. Qed.

(** A run of operations returns, never changes the policy flag, and
    leaves in [mError] and [mCurrentCommandName] the argument of the last
    [setError] and of the last [setCurrentCommandName] it contains (the
    values they had when it contains none). *)
Lemma run_scalars (ops : list Op) (w : World) :
  exists w',
    run ops w = Ok (tt, w') /\
    mObserveApplicationPool (observer w')
      = mObserveApplicationPool (observer w) /\
    getError w' = Ok (last_error ops (mError (observer w)), w') /\
    getCurrentCommandName w'
      = Ok (last_command_name ops (mCurrentCommandName (observer w)), w').
Proof.
  revert w. induction ops as [|op rest IH]; intros w.
  - exists w. repeat split.
  - destruct (step_scalars op w) as (w1 & Hstep & Hflag & Herr & Hname).
    destruct (IH w1) as (w' & Hrun & Hflag' & Herr' & Hname').
    exists w'. rewrite (run_cons op rest w w1 Hstep).
    rewrite last_error_cons, last_command_name_cons.
    rewrite <- Herr, <- Hname, <- Hflag. auto.
Qed.

(** When the scan returns, the one thing it has done to the world is a
    [read(str, size)]. *)
Lemma string_loop_scalars (str : Z) (w : World) :
  forall (fuel : nat) (i : Z) (text : std_string) (w' : World),
    string_loop fuel str i w = Ok (text, w') -> scalars w' = scalars w.
Proof.
  induction fuel as [|fuel IH]; intros i text w' Hloop; [discriminate|].
  cbn [string_loop] in Hloop. unfold bind at 1 in Hloop.
  unfold gets at 1 in Hloop.
  destruct (Byte.eqb (memory w ApplicationPool (str + i)) x00).
  - injection Hloop as _ <-. reflexivity.
  - now apply (IH _ _ _ Hloop).
Qed.

(** X4.  No operation writes the policy flag, and none but [setError]
    and [setCurrentCommandName] writes the error code and the command name.
    A sequence of range and slice reads and writes, element reads and
    writes, copies, clones, [observeReads], [observeWrites], [addExtra] and
    setter calls returns with the flag it started with and with
    [getError()] and [getCurrentCommandName()] giving the argument of the
    last [setError] and of the last [setCurrentCommandName] of the sequence
    (the values found, when it has none); and whenever
    [string(const char* str)], [string(slice)] or [observe(list)] return,
    they have left the three fields as they were. *)
Theorem scalars_change_through_setters_only (ops : list Op) (w : World) :
  (exists w',
     run ops w = Ok (tt, w') /\
     scalars w' =
       (mObserveApplicationPool (observer w),
        last_error ops (mError (observer w)),
        last_command_name ops (mCurrentCommandName (observer w))) /\
     getError w' = Ok (last_error ops (mError (observer w)), w') /\
     getCurrentCommandName w'
       = Ok (last_command_name ops (mCurrentCommandName (observer w)), w')) /\
  (forall fuel str text w',
     string_cstr fuel str w = Ok (text, w') -> scalars w' = scalars w) /\
  (forall slice text w',
     string_slice slice w = Ok (text, w') -> scalars w' = scalars w) /\
  (forall targetList l w',
     observe targetList w = Ok (l, w') -> scalars w' = scalars w).
Proof.
  split; [|split; [|split]].
  - destruct (run_scalars ops w) as (w' & Hrun & Hflag & Herr & Hname).
    exists w'. split; [exact Hrun|]. split; [|split; assumption].
    unfold scalars. unfold getError, getCurrentCommandName, gets in *.
    injection Herr as ->. injection Hname as ->. now rewrite Hflag.
  - intros fuel str text w' Hs. unfold string_cstr, bind, checkNotNull in Hs.
    destruct (str =? 0); [discriminate|]. unfold ret in Hs.
    now apply (string_loop_scalars str w fuel 0 text).
  - intros slice text w' Hs. unfold string_slice, bind in Hs.
    rewrite read_slice_after_read in Hs. unfold gets, ret in Hs.
    injection Hs as _ <-. unfold after_read.
    destruct (observed slice w); reflexivity.
  - intros targetList l w' Ho. injection Ho as _ <-. reflexivity.
Qed.

(** The error code is that of the last [setError], and a scan that
    records leaves it alone. *)
Lemma scalars_change_through_setters_only_witness :
  (exists w1,
     run [OpSetError 1282; OpRead 8192 4; OpObserveReads; OpSetError 1285;
          OpWriteIndex byte _ app_chars 0 x41]
       (fresh_world true abc_memory) = Ok (tt, w1) /\
     getError w1 = Ok (1285, w1)) /\
  (exists w2,
     string_cstr 4 4096
       (mkWorld (set_error 1282 (construct true)) abc_memory [])
     = Ok ([x61; x62; x63], w2) /\
     getError w2 = Ok (1282, w2)).
Proof.
  split.
  - destruct (scalars_change_through_setters_only
                [OpSetError 1282; OpRead 8192 4; OpObserveReads;
                 OpSetError 1285; OpWriteIndex byte _ app_chars 0 x41]
                (fresh_world true abc_memory))
      as ((w1 & Hrun & _ & Herr & _) & _).
    exists w1. split; [exact Hrun | exact Herr].
  - destruct (scalars_change_through_setters_only []
                (mkWorld (set_error 1282 (construct true)) abc_memory []))
      as (_ & Hcstr & _).
    eexists. split; [reflexivity|].
    pose proof (Hcstr 4%nat 4096 _ _ eq_refl) as Hsc.
    exact (f_equal (fun t => @Ok (Z * World) (snd (fst t), _)) Hsc).
Defined.

Lemma step_keeps_application_memory (op : Op) (w : World) :
  mObserveApplicationPool (observer w) = true -> is_poke op = false ->
  exists w',
    step op w = Ok (tt, w') /\
    mObserveApplicationPool (observer w') = true /\
    forall x, memory w' ApplicationPool x = memory w ApplicationPool x.
Proof.
  intros Hflag Hpoke.
  destruct w as [[name flag a obs pend ext err] m ps].
  simpl in Hflag. subst flag.
  destruct op; try discriminate; destruct pend, obs; expose_step;
    eexists; (split; [reflexivity|]); (split; [reflexivity|]);
    intros x; reflexivity.
Qed.

(** X5.  While the application pool is observed, no operation of the
    observer changes a byte of application memory: after any run without
    writes by the application itself, every address of the application
    pool holds what it held before. *)
Theorem observed_application_memory_is_never_written
  (ops : list Op) (w : World) :
  mObserveApplicationPool (observer w) = true ->
  forallb (fun op => negb (is_poke op)) ops = true ->
  exists w',
    run ops w = Ok (tt, w') /\
    forall x, memory w' ApplicationPool x = memory w ApplicationPool x.
Proof.
  revert w. induction ops as [|op rest IH]; intros w Hflag Hops.
  - exists w. split; [reflexivity | auto].
  - simpl in Hops. apply andb_true_iff in Hops. destruct Hops as (Hop & Hrest).
    apply negb_true_iff in Hop.
    destruct (step_keeps_application_memory op w Hflag Hop)
      as (w1 & Hstep & Hflag1 & Hmem1).
    destruct (IH w1 Hflag1 Hrest) as (w' & Hrun & Hmem).
    exists w'. rewrite (run_cons op rest w w1 Hstep).
    split; [exact Hrun|]. intros x. now rewrite Hmem, Hmem1.
Qed.

Lemma observed_application_memory_is_never_written_witness :
  exists w',
    run [OpWriteIndex byte _ app_chars 1 x41;
         OpCopy byte _ app_chars (mkSlice 8192 4 ApplicationPool);
         OpClone byte _ app_chars;
         OpWriteIndex byte _ (mkSlice 0 4 (SpyPool 0)) 0 x42;
         OpObserveWrites]
      (fresh_world true abc_memory) = Ok (tt, w') /\
    slice_bytes (memory w') app_chars = [x61; x62; x63; x00].
Proof.
  destruct (observed_application_memory_is_never_written
              [OpWriteIndex byte _ app_chars 1 x41;
               OpCopy byte _ app_chars (mkSlice 8192 4 ApplicationPool);
               OpClone byte _ app_chars;
               OpWriteIndex byte _ (mkSlice 0 4 (SpyPool 0)) 0 x42;
               OpObserveWrites]
              (fresh_world true abc_memory))
    as (w' & Hrun & Hmem); [reflexivity | reflexivity |].
  exists w'. split; [exact Hrun|].
  unfold slice_bytes, load_bytes. simpl. now rewrite !Hmem.
Defined.

Lemma step_keeps_observer_when_off (op : Op) (w : World) :
  mObserveApplicationPool (observer w) = false -> is_slice_op op = true ->
  exists w', step op w = Ok (tt, w') /\ observer w' = observer w.
Proof.
  intros Hflag Hop.
  destruct w as [[name flag a obs pend ext err] m ps].
  simpl in Hflag. subst flag.
  destruct op; try discriminate; expose_step;
    eexists; (split; reflexivity).
Qed.

(** X6.  While the application pool is not observed, no operation on
    slices touches the observer: after any run of slice reads, writes,
    copies and clones the tracker, the record and the extras are what they
    were. *)
Theorem unobserved_slice_operations_keep_observer
  (ops : list Op) (w : World) :
  mObserveApplicationPool (observer w) = false ->
  forallb is_slice_op ops = true ->
  exists w', run ops w = Ok (tt, w') /\ observer w' = observer w.
Proof.
  revert w. induction ops as [|op rest IH]; intros w Hflag Hops.
  - exists w. split; reflexivity.
  - simpl in Hops. apply andb_true_iff in Hops. destruct Hops as (Hop & Hrest).
    destruct (step_keeps_observer_when_off op w Hflag Hop)
      as (w1 & Hstep & Hobs1).
    destruct (IH w1) as (w' & Hrun & Hobs); [congruence | exact Hrest |].
    exists w'. rewrite (run_cons op rest w w1 Hstep).
    split; [exact Hrun | congruence].
Qed.

Lemma unobserved_slice_operations_keep_observer_witness :
  exists w',
    run [OpReadSlice byte _ app_chars;
         OpWriteIndex byte _ app_chars 1 x41;
         OpClone byte _ app_chars;
         OpWriteSlice byte _ app_chars]
      (fresh_world false abc_memory) = Ok (tt, w') /\
    observer w' = construct false.
Proof.
  destruct (unobserved_slice_operations_keep_observer
              [OpReadSlice byte _ app_chars;
               OpWriteIndex byte _ app_chars 1 x41;
               OpClone byte _ app_chars;
               OpWriteSlice byte _ app_chars]
              (fresh_world false abc_memory))
    as (w' & Hrun & Hobs); [reflexivity | reflexivity |].
  exists w'. split; [exact Hrun | exact Hobs].
Defined.

Lemma added_extras_cons (op : Op) (rest : list Op) :
  added_extras (op :: rest) = added_extras [op] ++ added_extras rest.
Proof. destruct op; reflexivity. Qed.

Lemma step_extends_extras (op : Op) (w : World) :
  exists w' new,
    step op w = Ok (tt, w') /\
    mExtras (observer w') = mExtras (observer w) ++ new /\
    filter (fun e => negb (is_scratch e)) new = added_extras [op].
Proof.
  destruct w as [[name flag a obs pend ext err] m ps].
  destruct op; destruct flag, pend, obs; expose_step;
    first [ eexists; exists [];
            split; [reflexivity|]; split; [now rewrite app_nil_r|]; reflexivity
          | do 2 eexists;
            split; [reflexivity|]; split; reflexivity ].
Qed.

(** X7.  The extras are append-only and keep the order of the calls: after
    any run the extras begin with the extras found, and the entries added
    since that are not the observer's own record are exactly the arguments
    of the [addExtra] calls, in call order. *)
Theorem extras_keep_call_order (ops : list Op) (w : World) :
  exists w' new,
    run ops w = Ok (tt, w') /\
    mExtras (observer w') = mExtras (observer w) ++ new /\
    filter (fun e => negb (is_scratch e)) new = added_extras ops /\
    foreign_extras w' = foreign_extras w ++ added_extras ops.
Proof.
  revert w. induction ops as [|op rest IH]; intros w.
  - exists w, []. unfold foreign_extras. rewrite !app_nil_r. repeat split.
  - destruct (step_extends_extras op w) as (w1 & new1 & Hstep & Hext1 & Hf1).
    destruct (IH w1) as (w' & new & Hrun & Hext & Hf & _).
    exists w', (new1 ++ new). rewrite (run_cons op rest w w1 Hstep).
    split; [exact Hrun|].
    assert (Hnew : filter (fun e => negb (is_scratch e)) (new1 ++ new)
                   = added_extras (op :: rest))
      by (now rewrite filter_app, Hf1, Hf, <- added_extras_cons).
    split; [now rewrite Hext, Hext1, app_assoc|].
    split; [exact Hnew|].
    unfold foreign_extras.
    now rewrite Hext, Hext1, <- app_assoc, filter_app, Hnew.
Qed.

Lemma step_grows_record (op : Op) (w w' : World) :
  single_record w -> step op w = Ok (tt, w') ->
  exists r1 r2,
    mReads (current_record w') = mReads (current_record w) ++ r1 /\
    mWrites (current_record w') = mWrites (current_record w) ++ r2.
Proof.
  intros Hinv Hstep.
  destruct w as [[name flag a obs pend ext err] m ps].
  unfold single_record in Hinv. simpl in Hinv.
  destruct obs as [h|];
    [ destruct Hinv as (-> & Hlen & _);
      destruct a as [|r [|r' a]]; try discriminate
    | destruct Hinv as (-> & _) ];
    destruct op; destruct flag, pend; expose_step;
    injection Hstep as <-; unfold current_record; simpl;
    first [ exists [], []; split; first [reflexivity | now rewrite app_nil_r]
          | eexists; exists []; split; first [reflexivity | now rewrite app_nil_r]
          | exists []; eexists; split; first [reflexivity | now rewrite app_nil_r] ].
Qed.

(** X8.  What has been materialized stays: after any run on an observer
    that holds at most one record, the reads and the writes of the record
    begin with the reads and the writes it held before. *)
Theorem observations_are_append_only (ops : list Op) (w : World) :
  single_record w ->
  exists w' r1 r2,
    run ops w = Ok (tt, w') /\
    mReads (current_record w') = mReads (current_record w) ++ r1 /\
    mWrites (current_record w') = mWrites (current_record w) ++ r2.
Proof.
  revert w. induction ops as [|op rest IH]; intros w Hinv.
  - exists w, [], []. rewrite !app_nil_r. repeat split.
  - destruct (step_keeps_single_record op w Hinv) as (w1 & Hstep & Hinv1).
    destruct (step_grows_record op w w1 Hinv Hstep) as (a1 & a2 & Hr1 & Hw1).
    destruct (IH w1 Hinv1) as (w' & b1 & b2 & Hrun & Hr & Hw).
    exists w', (a1 ++ b1), (a2 ++ b2).
    rewrite (run_cons op rest w w1 Hstep).
    split; [exact Hrun|].
    now rewrite Hr, Hw, Hr1, Hw1, !app_assoc.
Qed.

Lemma observations_are_append_only_witness :
  exists w',
    run [OpRead 4096 2; OpObserveReads; OpWrite 4098 1; OpObserveReads;
         OpWrite 4096 1; OpObserveWrites]
      (fresh_world true abc_memory) = Ok (tt, w') /\
    current_record w' =
      mkObservations
        [mkObservation 4096 [x61; x62]; mkObservation 4098 [x63]]
        [mkObservation 4096 [x61]].
Proof.
  destruct (observations_are_append_only
              [OpRead 4096 2; OpObserveReads; OpWrite 4098 1; OpObserveReads;
               OpWrite 4096 1; OpObserveWrites]
              (fresh_world true abc_memory))
    as (w' & r1 & r2 & Hrun & _); [split; reflexivity|].
  exists w'. split; [exact Hrun|].
  vm_compute in Hrun. injection Hrun as <-. reflexivity.
Defined.

Lemma observeReads_drains (w w' : World) :
  observeReads w = Ok (tt, w') -> IntervalList.count (pending w') = 0.
Proof.
  destruct w as [[name flag a obs pend ext err] m ps].
  destruct pend, obs; expose_step; intros Hrun; injection Hrun as <-;
    reflexivity.
Qed.

Lemma observeWrites_drains (w w' : World) :
  observeWrites w = Ok (tt, w') -> IntervalList.count (pending w') = 0.
Proof.
  destruct w as [[name flag a obs pend ext err] m ps].
  destruct pend, obs; expose_step; intros Hrun; injection Hrun as <-;
    reflexivity.
Qed.

(** X9.  Materializing twice is materializing once: right after an
    [observeReads()] or an [observeWrites()], a further [observeReads()] or
    [observeWrites()] changes nothing, so a range is drained into one list
    only, that of the call that came first. *)
Theorem materialization_is_idempotent (w w' : World) :
  observeReads w = Ok (tt, w') \/ observeWrites w = Ok (tt, w') ->
  observeReads w' = Ok (tt, w') /\ observeWrites w' = Ok (tt, w').
Proof.
  intros Hrun.
  assert (Hc : IntervalList.count (pending w') = 0)
    by (destruct Hrun;
        [now apply (observeReads_drains w) | now apply (observeWrites_drains w)]).
  split; [now apply observeReads_empty | now apply observeWrites_empty].
Qed.

Lemma materialization_is_idempotent_witness :
  exists w',
    run [OpRead 4096 4; OpObserveReads] (fresh_world true abc_memory)
    = Ok (tt, w') /\
    observeWrites w' = Ok (tt, w') /\
    mWrites (current_record w') = [].
Proof.
  eexists. split; [reflexivity|].
  split; [|reflexivity].
  eapply (materialization_is_idempotent
            (mkWorld (mkCallObserver 0 true [] None [mkInterval 4096 4100]
                        [] 0) abc_memory [])).
  left. reflexivity.
Defined.

(* ================================================================== *)
(** * Strings and the gate, clones and their owner                      *)
(* ================================================================== *)

Lemma load_bytes_snoc (m : Memory) (p : PoolId) (a n : Z) :
  0 <= n ->
  load_bytes m p a (n + 1) = load_bytes m p a n ++ [m p (a + n)].
Proof.
  intros Hn. unfold load_bytes.
  replace (Z.to_nat (n + 1)) with (S (Z.to_nat n)) by lia.
  rewrite seq_S, map_app. simpl. now rewrite Z2Nat.id.
Qed.

(** X10.  [string(const char* str)] is not subject to the policy gate.  With
    the first zero byte of the buffer at offset [n], it inserts the [n + 1]
    bytes at [str] into the tracker whatever the flag says, whereas
    [string(slice)] on the application-owned slice of the same [n + 1]
    bytes does so only when the application pool is observed, and then
    leaves the same world; the text of the slice is the text of the C string
    followed by the terminator. *)
Theorem string_cstr_ignores_gate (w : World) (str n : Z) (fuel : nat) :
  str <> 0 -> 0 <= n -> n + 1 < 2 ^ 64 ->
  (forall k, 0 <= k < n -> memory w ApplicationPool (str + k) <> x00) ->
  memory w ApplicationPool (str + n) = x00 ->
  (Z.to_nat n < fuel)%nat ->
  exists text w1 w2,
    string_cstr fuel str w = Ok (text, w1) /\
    string_slice (mkSlice str (n + 1) ApplicationPool) w
    = Ok (text ++ [x00], w2) /\
    pending w1 = IntervalList.insert str (n + 1) (pending w) /\
    (mObserveApplicationPool (observer w) = true -> w2 = w1) /\
    (mObserveApplicationPool (observer w) = false -> w2 = w).
Proof.
  intros Hstr Hn0 Hn Hnonzero Hzero Hfuel.
  do 3 eexists. split.
  - unfold string_cstr, bind, checkNotNull.
    destruct (Z.eqb_spec str 0); [contradiction|]. unfold ret.
    apply (string_loop_finds_terminator w str n Hn Hnonzero Hzero);
      [lia | now rewrite Z.sub_0_r].
  - split.
    + unfold string_slice, bind. rewrite read_slice_after_read.
      unfold gets, ret. rewrite after_read_memory.
      unfold slice_end, slice_begin. simpl.
      replace (str + (n + 1) * 1 - str) with (n + 1) by lia.
      rewrite load_bytes_snoc, Hzero by exact Hn0. reflexivity.
    + split; [reflexivity|].
      unfold after_read, observed, slice_count, slice_begin. simpl.
      rewrite andb_true_r.
      replace ((n + 1) * 1) with (n + 1) by lia.
      rewrite wrap64_small by lia.
      split; intros ->; reflexivity.
Qed.

Lemma string_cstr_ignores_gate_witness :
  exists w1,
    string_cstr 4 4096 (fresh_world false abc_memory)
    = Ok ([x61; x62; x63], w1) /\
    string_slice app_chars (fresh_world false abc_memory)
    = Ok ([x61; x62; x63; x00], fresh_world false abc_memory) /\
    pending w1 = [mkInterval 4096 4100].
Proof.
  destruct (string_cstr_ignores_gate (fresh_world false abc_memory) 4096 3 4)
    as (text & w1 & w2 & Hc & Hs & Hp & _ & Hoff).
  - lia.
  - lia.
  - lia.
  - intros k Hk.
    assert (k = 0 \/ k = 1 \/ k = 2) as [-> | [-> | ->]] by lia;
      simpl; discriminate.
  - reflexivity.
  - simpl. lia.
  - rewrite (Hoff eq_refl) in Hs.
    assert (Htext : text = [x61; x62; x63])
      by (vm_compute in Hc; now injection Hc as <- _).
    subst text. exists w1. split; [exact Hc|]. split; [exact Hs | exact Hp].
Defined.




Section CloneOwnership.
Context {T : Type} `{Storable T}.

(** A copy between slices of the same count carries all the bytes over. *)
Lemma slice_copy_bytes (m : Memory) (src dst : Slice T) :
  slice_count dst = slice_count src ->
  slice_bytes (slice_copy m src dst 0 (slice_count src) 0) dst
  = slice_bytes m src.
Proof.
  intros Hcount. unfold slice_bytes, slice_copy, slice_index, slice_count in *.
  rewrite Hcount, !Z.mul_0_l, !Z.add_0_r.
  set (bs := load_bytes m (mPool src) (mBase src) (mCount src * sizeof T)).
  apply nth_ext with (d := x00) (d' := x00).
  - unfold bs. now rewrite !load_bytes_length.
  - intros k Hk. rewrite load_bytes_length in Hk.
    rewrite nth_load_bytes by exact Hk.
    rewrite store_bytes_inside
      by (unfold bs; rewrite load_bytes_length; lia).
    f_equal. lia.
Qed.

Lemma clone_observed_false (src : Slice T) (w w1 : World) (dst : Slice T) :
  clone src w = Ok (dst, w1) -> observed dst w1 = false.
Proof.
  rewrite clone_eq. intros Hc. injection Hc as <- <-.
  unfold observed. simpl. apply andb_false_r.
Qed.

(** Nothing is recorded for a slice of one of the observer's pools. *)
Lemma after_read_spy (s : Slice T) (w : World) (id : nat) :
  mPool s = SpyPool id -> after_read s w = w.
Proof.
  intros Hpool. unfold after_read, observed, isApplicationPool.
  rewrite Hpool, andb_false_r. reflexivity.
Qed.

End CloneOwnership.

(** X12.  A clone belongs to the observer.  [write(dst, i, v)] on the
    slice [clone(src)] returned stores [v] in it and touches neither the
    observer nor application memory, whatever the policy flag; the elements
    of [src] keep their values; and a second [clone(src)] is backed by yet
    another pool. *)
Theorem clone_is_private {T : Type} `{Storable T}
  (src : Slice T) (i : Z) (v : T) (w : World) :
  pool_live (mPool src) w ->
  exists dst w1 w2 dst' w3,
    clone src w = Ok (dst, w1) /\
    write_index dst i v w1 = Ok (tt, w2) /\
    observer w2 = observer w1 /\
    slice_get (memory w2) dst i = v /\
    (forall x, memory w2 ApplicationPool x = memory w1 ApplicationPool x) /\
    (forall k, slice_get (memory w2) src k = slice_get (memory w1) src k) /\
    clone src w2 = Ok (dst', w3) /\
    mPool dst' <> mPool dst /\ mPool dst' <> mPool src.
Proof.
  intros Hlive.
  destruct (clone src w) as [[dst w1]| |] eqn:Hclone;
    try (rewrite clone_eq in Hclone; discriminate).
  pose proof (clone_observed_false src w w1 dst Hclone) as Hobs.
  rewrite clone_eq in Hclone. injection Hclone as Hdst Hw1.
  exists dst, w1. do 3 eexists.
  split; [reflexivity|].
  split; [rewrite write_index_eq, Hobs; reflexivity|].
  split; [reflexivity|].
  split; [apply slice_get_set|].
  assert (Hpool : mPool dst = SpyPool (length (pools w)))
    by (now rewrite <- Hdst).
  split.
  { intros x. simpl. apply slice_set_elsewhere. rewrite Hpool.
    intros (Heq & _). discriminate. }
  split.
  { intros k. simpl. unfold slice_get. f_equal.
    apply load_bytes_ext. intros j Hj. apply slice_set_elsewhere.
    rewrite Hpool. intros (Heq & _). symmetry in Heq.
    now apply (fresh_pool_differs _ _ Hlive). }
  split; [apply clone_eq|].
  simpl. rewrite Hpool, <- Hw1. simpl. rewrite after_read_pools. simpl.
  rewrite length_app, Nat.add_1_r.
  split.
  - intros Heq. injection Heq as Heq. lia.
  - destruct (mPool src) as [|id]; [discriminate|].
    simpl in Hlive. intros Heq. injection Heq as Heq. lia.
Qed.

Lemma clone_is_private_witness :
  exists dst w1 w2,
    clone app_chars (fresh_world true abc_memory) = Ok (dst, w1) /\
    write_index dst 0 x41 w1 = Ok (tt, w2) /\
    slice_bytes (memory w2) dst = [x41; x62; x63; x00] /\
    slice_bytes (memory w2) app_chars = [x61; x62; x63; x00] /\
    pending w2 = [mkInterval 4096 4100].
Proof.
  destruct (clone_is_private app_chars 0 x41 (fresh_world true abc_memory))
    as (dst & w1 & w2 & _ & _ & Hc & Hw & _); [exact I|].
  exists dst, w1, w2. split; [exact Hc|]. split; [exact Hw|].
  rewrite clone_eq in Hc. injection Hc as <- <-.
  vm_compute in Hw. injection Hw as <-.
  repeat split.
Defined.

(** X13.  Copying from an empty slice does nothing: [copy(dst, src)] with
    [src.count() == 0] returns [dst], leaves the observer as it was, even
    when [src] is observed, and changes no byte of memory. *)
Theorem copy_from_empty_slice {T : Type} `{Storable T}
  (dst src : Slice T) (w : World) :
  slice_count src = 0 -> 0 <= slice_count dst ->
  exists w',
    copy dst src w = Ok (dst, w') /\
    observer w' = observer w /\ pools w' = pools w /\
    forall q x, memory w' q x = memory w q x.
Proof.
  intros Hsrc Hdst.
  assert (Hread : after_read src w = w).
  { unfold after_read. rewrite Hsrc. simpl.
    destruct (observed src w); [|reflexivity].
    destruct w as [[name flag a obs pend ext err] m ps]. reflexivity. }
  eexists. split; [apply copy_eq|]. rewrite Hread, Hsrc.
  destruct (observed dst w); [repeat split|].
  rewrite Z.min_l by lia. simpl. repeat split.
  intros q x. apply slice_copy_elsewhere; lia.
Qed.

Lemma copy_from_empty_slice_witness :
  exists w',
    copy spy_chars (mkSlice 4096 0 ApplicationPool)
      (mkWorld (construct true) abc_memory [4])
    = Ok (spy_chars, w') /\
    pending w' = [] /\
    slice_bytes (memory w') spy_chars = [x00; x00; x00; x00].
Proof.
  destruct (copy_from_empty_slice spy_chars (mkSlice 4096 0 ApplicationPool)
              (mkWorld (construct true) abc_memory [4]))
    as (w' & Hc & Hobs & _ & Hmem); [reflexivity | simpl; lia |].
  exists w'. split; [exact Hc|].
  split; [unfold pending; now rewrite Hobs|].
  unfold slice_bytes, load_bytes. simpl. now rewrite !Hmem.
Defined.

(** X14.  The string of a clone is the string of the original:
    [string(clone(slice))] returns the bytes [string(slice)] returns, and
    taking it records nothing. *)
Theorem string_of_clone (slice : Slice byte) (w : World) :
  0 <= slice_count slice ->
  exists dst w1 text,
    clone slice w = Ok (dst, w1) /\
    string_slice dst w1 = Ok (text, w1) /\
    string_slice slice w = Ok (text, after_read slice w) /\
    text = slice_bytes (memory w) slice.
Proof.
  intros Hcount.
  assert (Htext : forall (s : Slice byte) (w0 : World),
            string_slice s w0
            = Ok (slice_bytes (memory w0) s, after_read s w0)).
  { intros s w0. unfold string_slice, bind.
    rewrite read_slice_after_read. unfold gets, ret.
    rewrite after_read_memory.
    unfold slice_bytes, slice_end, slice_begin.
    now replace (mBase s + mCount s * sizeof byte - mBase s)
      with (mCount s * sizeof byte) by lia. }
  destruct (clone slice w) as [[dst w1]| |] eqn:Hclone;
    try (rewrite clone_eq in Hclone; discriminate).
  exists dst, w1, (slice_bytes (memory w) slice).
  split; [reflexivity|].
  rewrite clone_eq in Hclone. injection Hclone as Hdst Hw1.
  rewrite !Htext. split; [|split; reflexivity].
  rewrite (after_read_spy dst w1 (length (pools w)))
    by (now rewrite <- Hdst).
  subst dst w1. simpl. rewrite after_read_memory. simpl.
  now rewrite slice_copy_bytes by reflexivity.
Qed.

Lemma string_of_clone_witness :
  exists dst w1,
    clone app_chars (fresh_world true abc_memory) = Ok (dst, w1) /\
    string_slice dst w1 = Ok ([x61; x62; x63; x00], w1).
Proof.
  destruct (string_of_clone app_chars (fresh_world true abc_memory))
    as (dst & w1 & text & Hc & Hs & _ & Htext); [simpl; lia|].
  exists dst, w1. split; [exact Hc|]. rewrite Hs, Htext. reflexivity.
Defined.

(** X15.  [make(count)] asks [Pool::create] for [count * sizeof(T)] bytes
    computed in 64 bits: the slice it returns has [count] elements in a new
    pool that is not the application's, and the pool has exactly the size
    of the slice as long as [count * sizeof(T)] fits in 64 bits; once the
    product wraps, the pool is smaller than the slice that views it. *)
Theorem make_sizes_the_pool {T : Type} `{Storable T}
  (count : Z) (w : World) :
  0 <= count ->
  exists dst w',
    make (T := T) count w = Ok (dst, w') /\
    slice_count dst = count /\ isApplicationPool dst = false /\
    ~ pool_live (mPool dst) w /\ pool_live (mPool dst) w' /\
    observer w' = observer w /\ memory w' = memory w /\
    (count * sizeof T < 2 ^ 64 ->
     last (pools w') 0 = slice_end dst - slice_begin dst) /\
    (2 ^ 64 <= count * sizeof T ->
     last (pools w') 0 < slice_end dst - slice_begin dst).
Proof.
  intros Hcount. pose proof (@sizeof_pos T _) as Hsz.
  do 2 eexists. split; [apply make_eq|].
  unfold slice_end, slice_begin, slice_count, wrap64. simpl.
  rewrite last_last, length_app. simpl.
  repeat split; try lia.
  - intros Hfit. rewrite Z.mod_small by nia. lia.
  - intros Hwrap.
    pose proof (Z.mod_pos_bound (count * sizeof T) (2 ^ 64)). lia.
Qed.

Lemma make_sizes_the_pool_witness :
  exists dst w',
    make (T := byte * byte) (2 ^ 63) (fresh_world true zero_memory)
    = Ok (dst, w') /\
    slice_count dst = 2 ^ 63 /\ pools w' = [0].
Proof.
  destruct (make_sizes_the_pool (T := byte * byte) (2 ^ 63)
              (fresh_world true zero_memory))
    as (dst & w' & Hm & Hc & _); [lia|].
  exists dst, w'. split; [exact Hm|]. split; [exact Hc|].
  rewrite make_eq in Hm. injection Hm as _ <-. reflexivity.
Defined.

Section CopyBack.
Context {T : Type} `{Storable T}.

(** Copying the first [c] elements of [src] to [dst] and back leaves
    memory as the first copy left it. *)
Lemma slice_copy_back (m : Memory) (src dst : Slice T) (c : Z)
  (q : PoolId) (x : Z) :
  slices_disjoint src dst ->
  0 <= c -> c <= slice_count src -> c <= slice_count dst ->
  slice_copy (slice_copy m src dst 0 c 0) dst src 0 c 0 q x
  = slice_copy m src dst 0 c 0 q x.
Proof.
  intros Hdis Hc Hcs Hcd. pose proof (@sizeof_pos T _) as Hsz.
  set (m1 := slice_copy m src dst 0 c 0).
  destruct (PoolId_eqb q (mPool src)) eqn:Hq.
  - apply PoolId_eqb_eq in Hq. subst q.
    destruct (Z_le_gt_dec (mBase src) x) as [Hlo|Hlo];
      [destruct (Z_lt_ge_dec x (mBase src + c * sizeof T)) as [Hhi|Hhi]|].
    + (* inside what the second copy writes *)
      unfold slice_copy at 1. unfold slice_index.
      rewrite store_bytes_inside by (rewrite load_bytes_length; lia).
      rewrite nth_load_bytes by lia.
      unfold m1 at 1. unfold slice_copy, slice_index.
      rewrite store_bytes_inside by (rewrite load_bytes_length; lia).
      rewrite nth_load_bytes by lia.
      unfold m1. rewrite slice_copy_elsewhere; [f_equal; lia | lia |].
      unfold slices_disjoint, slice_end, slice_count in *.
      intros (Hp & Hx). destruct Hdis as [Hne | [Hd | Hd]];
        [congruence | nia | nia].
    + apply slice_copy_elsewhere; [lia|]. intros (_ & Hx). lia.
    + apply slice_copy_elsewhere; [lia|]. intros (_ & Hx). lia.
  - apply slice_copy_elsewhere; [lia|]. intros (Heq & _).
    subst q. now rewrite PoolId_eqb_refl in Hq.
Qed.

End CopyBack.

(** X16.  Copying back changes nothing: when neither slice is observed
    and the two share no byte, [copy(src, dst)] right after
    [copy(dst, src)] returns [src] and leaves every byte of memory, and the
    observer, as the first copy left them. *)
Theorem copy_back_changes_nothing {T : Type} `{Storable T}
  (dst src : Slice T) (w : World) :
  observed dst w = false -> observed src w = false ->
  slices_disjoint src dst ->
  0 <= slice_count src -> 0 <= slice_count dst ->
  exists w1 w2,
    copy dst src w = Ok (dst, w1) /\
    copy src dst w1 = Ok (src, w2) /\
    observer w2 = observer w /\
    forall q x, memory w2 q x = memory w1 q x.
Proof.
  intros Hdst Hsrc Hdis Hcs Hcd.
  assert (Hread : forall s : Slice T,
            observed s w = false -> after_read s w = w)
    by (intros s Hs; unfold after_read; now rewrite Hs).
  do 2 eexists. split; [rewrite copy_eq, Hdst, (Hread src Hsrc); reflexivity|].
  rewrite copy_eq.
  assert (Hkeep : forall (s : Slice T) f,
            observed s (with_memory f w) = observed s w)
    by reflexivity.
  rewrite Hkeep, Hsrc. unfold after_read. rewrite Hkeep, Hdst.
  split; [reflexivity|]. split; [reflexivity|].
  intros q x. simpl. rewrite (Z.min_comm (slice_count dst)).
  apply slice_copy_back; [exact Hdis | lia | lia | lia].
Qed.

Lemma copy_back_changes_nothing_witness :
  exists w1 w2,
    copy spy_chars app_chars (mkWorld (construct false) abc_memory [4])
    = Ok (spy_chars, w1) /\
    copy app_chars spy_chars w1 = Ok (app_chars, w2) /\
    slice_bytes (memory w2) app_chars = [x61; x62; x63; x00] /\
    slice_bytes (memory w2) spy_chars = [x61; x62; x63; x00].
Proof.
  destruct (copy_back_changes_nothing spy_chars app_chars
              (mkWorld (construct false) abc_memory [4]))
    as (w1 & w2 & Hc1 & Hc2 & _ & Hmem).
  - reflexivity.
  - reflexivity.
  - left. discriminate.
  - simpl. lia.
  - simpl. lia.
  - exists w1, w2. split; [exact Hc1|]. split; [exact Hc2|].
    rewrite copy_eq in Hc1. injection Hc1 as <-.
    unfold slice_bytes, load_bytes. simpl. rewrite !Hmem. split; reflexivity.
Defined.
